(** * Segment selector (aediting / vediting) and timestamp stabilizer
      (afixpts / vfixpts): a shallow embedding and its properties.

    The two libavfilter stages are embedded as pure state-passing functions.

    - C [double] values are kept behind the interface [DoubleOps], with two
      instances: [binary64] (the kernel's IEEE-754 binary64 numbers, which is
      what the C code computes with) and [exactQ] (exact rationals, the
      arithmetic the prose description of the stages reasons in).
    - Facts that only follow the control flow are proved for every instance.
      Facts that need the comparisons to behave like an order are proved from
      [CmpLaws], which both instances satisfy; facts that need monotone
      arithmetic are proved from [ExactLaws], which [exactQ] satisfies.
    - The linked list of segments is a [list]; the [current] pointer is the
      suffix of the list it points to, [nil] being [NULL].
    - The frame FIFO is a [list] of frames, oldest first; its sizes are in
      bytes as in the C code ([sizeof (AVFrame * )] = 8).
    - The frames handed to [ff_filter_frame] and to [av_frame_free] are logged
      in a [World], next to the state of the downstream filter. *)

From Stdlib Require Import ZArith QArith Qabs Floats Uint63 List Bool Lia.
From Stdlib Require Import Ascii String Sorted Permutation.
Import ListNotations.

Set Implicit Arguments.

Local Open Scope Z_scope.

(* ================================================================== *)
(** * C doubles *)

Declare Scope dbl_scope.
Delimit Scope dbl_scope with D.

(** The operations the two filters use on [double]. *)
Class DoubleOps (D : Type) : Type := {
  dadd : D -> D -> D;
  dsub : D -> D -> D;
  dmul : D -> D -> D;
  ddiv : D -> D -> D;
  fabs : D -> D;
  dltb : D -> D -> bool;
  dleb : D -> D -> bool;
  (** [(double) n] for an integer [n] *)
  of_int : Z -> D;
  (** [(int64_t) x]: truncation toward zero *)
  to_int64 : D -> Z
}.

Notation "x + y" := (dadd x y) : dbl_scope.
Notation "x - y" := (dsub x y) : dbl_scope.
Notation "x * y" := (dmul x y) : dbl_scope.
Notation "x / y" := (ddiv x y) : dbl_scope.
Notation "x <? y" := (dltb x y) (at level 70, no associativity) : dbl_scope.
Notation "x <=? y" := (dleb x y) (at level 70, no associativity) : dbl_scope.
Notation "x >? y" := (dltb y x) (at level 70, no associativity) : dbl_scope.
Notation "x >=? y" := (dleb y x) (at level 70, no associativity) : dbl_scope.

(** [x] compares equal to itself: it is a number, not a NaN. *)
Definition is_num {D} `{DoubleOps D} (x : D) : bool := (x <=? x)%D.

(** What both instances satisfy: [<] is transitive, also along [<=],
    excludes [>=] the other way round, and on numbers [<] is the negation
    of [>=]. *)
Class CmpLaws (D : Type) `{DoubleOps D} : Prop := {
  dltb_trans : forall a b c : D,
    (a <? b)%D = true -> (b <? c)%D = true -> (a <? c)%D = true;
  dltb_leb_trans : forall a b c : D,
    (a <? b)%D = true -> (b <=? c)%D = true -> (a <? c)%D = true;
  dltb_not_geb : forall a b : D, (a <? b)%D = true -> (a >=? b)%D = false;
  dltb_negb_geb : forall a b : D,
    is_num a = true -> is_num b = true -> (a <? b)%D = negb (a >=? b)%D
}.
Arguments CmpLaws D {_}.

(** Exact arithmetic: a total order on which [-], [+], [/] by a positive
    number and the conversion to integers are monotone. *)
Class ExactLaws (D : Type) `{DoubleOps D} : Prop := {
  dleb_refl : forall a : D, (a <=? a)%D = true;
  dleb_total : forall a b : D, (a <=? b)%D = true \/ (b <=? a)%D = true;
  dleb_trans : forall a b c : D,
    (a <=? b)%D = true -> (b <=? c)%D = true -> (a <=? c)%D = true;
  dltb_negb : forall a b : D, (a <? b)%D = negb (b <=? a)%D;
  dsub_mono : forall a b s : D,
    (a <=? b)%D = true -> (a - s <=? b - s)%D = true;
  dsub_nonneg : forall a s : D,
    (s <=? a)%D = true -> (of_int 0 <=? a - s)%D = true;
  dadd_mono : forall b x y : D,
    (x <=? y)%D = true -> (b + x <=? b + y)%D = true;
  dadd_nonneg : forall b x : D,
    (of_int 0 <=? x)%D = true -> (b <=? b + x)%D = true;
  ddiv_mono : forall q x y : D,
    (of_int 0 <? q)%D = true -> (x <=? y)%D = true ->
    (x / q <=? y / q)%D = true;
  to_int64_mono : forall x y : D,
    (x <=? y)%D = true -> to_int64 x <= to_int64 y
}.
Arguments ExactLaws D {_}.

(* ------------------------------------------------------------------ *)
(** ** IEEE-754 binary64 *)

Module Binary64.

Definition INT64_MIN : Z := - 2 ^ 63.
Definition INT64_MAX : Z := 2 ^ 63 - 1.

(** [(double) n] for [n] in the range of [int64_t], rounding to nearest. *)
Definition of_int (n : Z) : float :=
  if n =? INT64_MIN then PrimFloat.opp (Z.ldexp PrimFloat.one 63)
  else if n <? 0 then PrimFloat.opp (PrimFloat.of_uint63 (Uint63.of_Z (- n)))
  else PrimFloat.of_uint63 (Uint63.of_Z n).

(** [(int64_t) x]: the value of x86-64's [cvttsd2si], which truncates and
    yields [INT64_MIN] for a NaN and for a number out of range (the
    conversion is undefined in C there). *)
Definition to_int64 (x : float) : Z :=
  match Prim2SF x with
  | S754_zero _ => 0
  | S754_finite s m e =>
      let v := if 0 <=? e then Z.pos m * 2 ^ e else Z.pos m / 2 ^ (- e) in
      let r := if s then - v else v in
      if (INT64_MIN <=? r) && (r <=? INT64_MAX) then r else INT64_MIN
  | S754_infinity _ | S754_nan => INT64_MIN
  end.

End Binary64.

#[export] Instance binary64 : DoubleOps float := {
  dadd := PrimFloat.add;
  dsub := PrimFloat.sub;
  dmul := PrimFloat.mul;
  ddiv := PrimFloat.div;
  fabs := PrimFloat.abs;
  dltb := PrimFloat.ltb;
  dleb := PrimFloat.leb;
  of_int := Binary64.of_int;
  to_int64 := Binary64.to_int64
}.

(* ------------------------------------------------------------------ *)
(** ** Exact rationals *)

Module ExactQ.

Definition ltb (x y : Q) : bool := negb (Qle_bool y x).

(** Truncation toward zero. *)
Definition to_int64 (x : Q) : Z := Z.quot (Qnum x) (Z.pos (Qden x)).

End ExactQ.

#[export] Instance exactQ : DoubleOps Q := {
  dadd := Qplus;
  dsub := Qminus;
  dmul := Qmult;
  ddiv := Qdiv;
  fabs := Qabs;
  dltb := ExactQ.ltb;
  dleb := Qle_bool;
  of_int := inject_Z;
  to_int64 := ExactQ.to_int64
}.

(* ================================================================== *)
(** * What the filters share with libavfilter *)

(** [AVRational] of libavutil/rational.h. *)
Record AVRational : Type := { num : Z; den : Z }.

(** [av_q2d]: [a.num / (double) a.den]. *)
Definition av_q2d {D} `{DoubleOps D} (a : AVRational) : D :=
  (of_int (num a) / of_int (den a))%D.

(** The fields of [AVFrame] the filters read or write. *)
Record AVFrame : Type := { pts : Z; nb_samples : Z }.

Inductive AVMediaType : Type := AVMEDIA_TYPE_VIDEO | AVMEDIA_TYPE_AUDIO.

(** The fields of [AVFilterLink] the filters read. *)
Record AVFilterLink : Type := {
  type : AVMediaType;
  time_base : AVRational;
  frame_rate : AVRational;
  sample_rate : Z
}.

(** libavutil/error.h: [AVERROR(e)] is [-e], [AVERROR_EOF] is
    [-MKTAG('E','O','F',' ')]. *)
Definition EINVAL : Z := 22.
Definition AVERROR (e : Z) : Z := - e.
Definition AVERROR_EOF : Z := - (69 + 79 * 2 ^ 8 + 70 * 2 ^ 16 + 32 * 2 ^ 24).

(** The filter downstream: a state and what its input pad returns for a
    frame. *)
Class Downstream (DS : Type) : Type :=
  deliver : DS -> AVFrame -> DS * Z.

(** What a filter leaves behind: the state of the filter downstream, the
    frames passed to [ff_filter_frame] and those passed to [av_frame_free],
    both oldest first. *)
Record World (DS : Type) : Type := {
  sink : DS;
  forwarded : list AVFrame;
  freed : list AVFrame
}.

Section Effects.
Context {DS : Type} `{Downstream DS}.

(** [ff_filter_frame (outlink, frame)]: the frame leaves the filter whatever
    the pad returns. *)
Definition ff_filter_frame (w : World DS) (frame : AVFrame) : Z * World DS :=
  let (s, ret) := deliver (sink w) frame in
  (ret, {| sink := s; forwarded := forwarded w ++ [frame]; freed := freed w |}).

(** [av_frame_free (&frame)]. *)
Definition av_frame_free (w : World DS) (frame : AVFrame) : World DS :=
  {| sink := sink w; forwarded := forwarded w; freed := freed w ++ [frame] |}.

End Effects.

(** Modelled from the spec: [ff_request_frame] and the source filter behind
    the input link are not among the sources. A pull either makes the source
    hand one frame to the filter's [filter_frame] and return what that
    returned, or makes it return a code (end of stream, an error) without a
    frame. *)
Inductive Upstream : Type :=
  | UpFrame (frame : AVFrame)
  | UpReturn (ret : Z).

(** Modelled from the spec: libavutil/fifo.c is not among the sources. The
    Frame Queue is a FIFO of frame handles with "peek at offset", "pop front"
    and "drop front N"; offsets and sizes are in bytes, a handle taking
    [sizeof_ptr] of them. Sizes are not wrapped: with fewer than 2^28
    frames they fit the [int] that [av_fifo_size] returns. *)
Module Fifo.

Definition sizeof_ptr : Z := 8.

Definition AVFifoBuffer : Type := list AVFrame.

Definition av_fifo_size (f : AVFifoBuffer) : Z :=
  sizeof_ptr * Z.of_nat (List.length f).

Definition av_fifo_generic_write (f : AVFifoBuffer) (frame : AVFrame)
  : AVFifoBuffer := f ++ [frame].

(** Reading from an empty queue yields nothing the caller may use. *)
Definition av_fifo_generic_read (f : AVFifoBuffer)
  : option (AVFrame * AVFifoBuffer) :=
  match f with
  | [] => None
  | frame :: f' => Some (frame, f')
  end.

Definition av_fifo_peek2 (f : AVFifoBuffer) (offs : Z) : option AVFrame :=
  nth_error f (Z.to_nat (offs / sizeof_ptr)).

Definition av_fifo_drain (f : AVFifoBuffer) (size : Z) : AVFifoBuffer :=
  skipn (Z.to_nat (size / sizeof_ptr)) f.

End Fifo.

(* ================================================================== *)
(** * The timestamp stabilizer: libavfilter/f_fixpts.c *)

Module FixPts.
Import Fifo.

Record FixPtsContext (D : Type) : Type := {
  bufsize : Z;
  maxbufsize : Z;
  last_ts : D;
  last_nb_samples : Z;
  tolerance : D;
  fifo : AVFifoBuffer
}.

Definition set_fifo {D} (fixpts : FixPtsContext D) (f : AVFifoBuffer)
  : FixPtsContext D :=
  {| bufsize := bufsize fixpts; maxbufsize := maxbufsize fixpts;
     last_ts := last_ts fixpts; last_nb_samples := last_nb_samples fixpts;
     tolerance := tolerance fixpts; fifo := f |}.

Section Stage.
Context {D : Type} `{DoubleOps D} {DS : Type} `{Downstream DS}.

(** [frame->pts * av_q2d (inlink->time_base)] *)
Definition frame_ts (inlink : AVFilterLink) (frame : AVFrame) : D :=
  (of_int (pts frame) * av_q2d (time_base inlink))%D.

(** The expected interval [frame_ti]. *)
Definition frame_ti (inlink : AVFilterLink) (fixpts : FixPtsContext D) : D :=
  match type inlink with
  | AVMEDIA_TYPE_VIDEO => (of_int 1 / av_q2d (frame_rate inlink))%D
  | AVMEDIA_TYPE_AUDIO =>
      (of_int 1 / of_int (sample_rate inlink)
       * of_int (last_nb_samples fixpts))%D
  end.

(** [fabs (fixpts->last_ts - frame->pts * av_q2d (...) + frame_ti)] *)
Definition gap (inlink : AVFilterLink) (fixpts : FixPtsContext D)
    (frame : AVFrame) : D :=
  fabs (last_ts fixpts - frame_ts inlink frame + frame_ti inlink fixpts)%D.

(** The loop over the queued frames: [cached] is the queue from byte offset
    [i] on; the result is [(drain_size, best_gap)]. *)
Fixpoint scan (inlink : AVFilterLink) (fixpts : FixPtsContext D)
    (cached : list AVFrame) (i drain_size : Z) (best_gap : D) : Z * D :=
  match cached with
  | [] => (drain_size, best_gap)
  | c :: cached' =>
      let cached_gap := gap inlink fixpts c in
      if (cached_gap <? best_gap)%D
      then scan inlink fixpts cached' (i + sizeof_ptr) i cached_gap
      else scan inlink fixpts cached' (i + sizeof_ptr) drain_size best_gap
  end.

(** The loop that frees the frames at the offsets below [drain_size]. *)
Fixpoint free_cached (cached : list AVFrame) (i drain_size : Z)
    (w : World DS) : World DS :=
  match cached with
  | [] => w
  | c :: cached' =>
      if i <? drain_size
      then free_cached cached' (i + sizeof_ptr) drain_size (av_frame_free w c)
      else w
  end.

(** The label [submit_and_exit]. *)
Definition submit_and_exit (inlink : AVFilterLink) (fixpts : FixPtsContext D)
    (w : World DS) (frame : AVFrame) : Z * FixPtsContext D * World DS :=
  let fixpts' :=
    {| bufsize := bufsize fixpts; maxbufsize := maxbufsize fixpts;
       last_ts := frame_ts inlink frame;
       last_nb_samples := nb_samples frame;
       tolerance := tolerance fixpts; fifo := fifo fixpts |} in
  let (ret, w') := ff_filter_frame w frame in
  (ret, fixpts', w').

(** The resolution step. [None]: the queue was empty, the frame read from it
    is garbage. *)
Definition process_next_frame (inlink : AVFilterLink)
    (fixpts : FixPtsContext D) (w : World DS)
  : option (Z * FixPtsContext D * World DS) :=
  match av_fifo_generic_read (fifo fixpts) with
  | None => None
  | Some (frame, f) =>
      let fixpts := set_fifo fixpts f in
      let frame_gap := gap inlink fixpts frame in
      if (frame_gap <? tolerance fixpts)%D
      then Some (submit_and_exit inlink fixpts w frame)
      else
        let '(drain_size, best_gap) :=
          scan inlink fixpts (fifo fixpts) 0 0 frame_gap in
        if (best_gap >=? frame_gap)%D
        then Some (submit_and_exit inlink fixpts w frame)
        else
          let w := free_cached (fifo fixpts) 0 drain_size w in
          let w := av_frame_free w frame in
          Some (0, set_fifo fixpts (av_fifo_drain (fifo fixpts) drain_size), w)
  end.

(** The input pad. The value of [process_next_frame] is dropped and [ret]
    stays 0. *)
Definition filter_frame (inlink : AVFilterLink) (fixpts : FixPtsContext D)
    (w : World DS) (frame : AVFrame)
  : option (Z * FixPtsContext D * World DS) :=
  let ret := 0 in
  let fixpts :=
    if av_fifo_size (fifo fixpts) <? maxbufsize fixpts
    then set_fifo fixpts (av_fifo_generic_write (fifo fixpts) frame)
    else fixpts in
  let step :=
    if av_fifo_size (fifo fixpts) =? maxbufsize fixpts
    then match process_next_frame inlink fixpts w with
         | Some (_, fixpts', w') => Some (fixpts', w')
         | None => None
         end
    else Some (fixpts, w) in
  match step with
  | None => None
  | Some (fixpts, w) =>
      if av_fifo_size (fifo fixpts) >? maxbufsize fixpts
      then Some (AVERROR EINVAL, fixpts, w)
      else Some (ret, fixpts, w)
  end.

(** [ff_request_frame (outlink->src->inputs[0])] *)
Definition ff_request_frame (up : Upstream) (inlink : AVFilterLink)
    (fixpts : FixPtsContext D) (w : World DS)
  : option (Z * FixPtsContext D * World DS) :=
  match up with
  | UpFrame frame => filter_frame inlink fixpts w frame
  | UpReturn ret => Some (ret, fixpts, w)
  end.

(** The loop of [request_frame]: [ret] is what [ff_request_frame] returned
    and is not assigned in the loop. [None]: out of fuel. *)
Fixpoint flush (fuel : nat) (inlink : AVFilterLink) (ret : Z)
    (fixpts : FixPtsContext D) (w : World DS)
  : option (Z * FixPtsContext D * World DS) :=
  if av_fifo_size (fifo fixpts) >? 0 then
    match fuel with
    | O => None
    | S fuel' =>
        match process_next_frame inlink fixpts w with
        | None => None
        | Some (_, fixpts', w') =>
            if negb (ret =? 0) then Some (ret, fixpts', w')
            else flush fuel' inlink ret fixpts' w'
        end
    end
  else Some (0, fixpts, w).

(** The output pad. Every turn of the loop takes a frame off the queue, so
    the length of the queue is fuel enough. *)
Definition request_frame (up : Upstream) (inlink : AVFilterLink)
    (fixpts : FixPtsContext D) (w : World DS)
  : option (Z * FixPtsContext D * World DS) :=
  match ff_request_frame up inlink fixpts w with
  | None => None
  | Some (ret, fixpts, w) =>
      if negb (ret =? AVERROR_EOF) || (av_fifo_size (fifo fixpts) =? 0)
      then Some (ret, fixpts, w)
      else flush (List.length (fifo fixpts)) inlink ret fixpts w
  end.

(** [init], the queue allocated. *)
Definition init (bufsize : Z) (tolerance : D) : FixPtsContext D :=
  {| bufsize := bufsize; maxbufsize := sizeof_ptr * bufsize;
     last_ts := of_int 0; last_nb_samples := 0;
     tolerance := tolerance; fifo := [] |}.

(** A run of frame arrivals: the values returned, in order, and the state
    after the last one. *)
Fixpoint deliveries (inlink : AVFilterLink) (fixpts : FixPtsContext D)
    (w : World DS) (frames : list AVFrame)
  : option (list Z * FixPtsContext D * World DS) :=
  match frames with
  | [] => Some ([], fixpts, w)
  | frame :: frames' =>
      match filter_frame inlink fixpts w frame with
      | None => None
      | Some (ret, fixpts', w') =>
          match deliveries inlink fixpts' w' frames' with
          | None => None
          | Some (rets, fixpts'', w'') => Some (ret :: rets, fixpts'', w'')
          end
      end
  end.

End Stage.
End FixPts.

(* ================================================================== *)
(** * The segment selector: the aediting / vediting filter *)

Module Editing.

(** A node of the segment list; [next] is the tail of the list. *)
Record MediaSegment (D : Type) : Type := { start : D; end_ : D }.

Record EditingContext (D : Type) : Type := {
  opt_segments : option string;
  ts_base : D;
  ts_prev : D;
  frame_out : Z;
  current : list (MediaSegment D);
  segments : list (MediaSegment D)
}.

(** [strsep] with a single delimiter: the token up to the first delimiter
    and what follows it, [None] ([NULL]) when there is no delimiter. *)
Fixpoint strsep_split (s : string) (delim : ascii) : string * option string :=
  match s with
  | EmptyString => (EmptyString, None)
  | String c s' =>
      if Ascii.eqb c delim then (EmptyString, Some s')
      else let (tok, rest) := strsep_split s' delim in (String c tok, rest)
  end.

Definition strsep (stringp : option string) (delim : ascii)
  : option string * option string :=
  match stringp with
  | None => (None, None)
  | Some s => let (tok, rest) := strsep_split s delim in (Some tok, rest)
  end.

Section Stage.
Context {D : Type} `{DoubleOps D} {DS : Type} `{Downstream DS}.

(** libc's [atof]. *)
Variable atof : string -> D.

Definition set_frame_out (editing : EditingContext D) (v : Z)
  : EditingContext D :=
  {| opt_segments := opt_segments editing; ts_base := ts_base editing;
     ts_prev := ts_prev editing; frame_out := v;
     current := current editing; segments := segments editing |}.

(** The label [discard]. *)
Definition discard (editing : EditingContext D) (w : World DS)
    (frame : AVFrame) : Z * EditingContext D * World DS :=
  (0, set_frame_out editing 0, av_frame_free w frame).

(** [(double) frame->pts * av_q2d (inlink->time_base)] *)
Definition frame_in_ts (inlink : AVFilterLink) (frame : AVFrame) : D :=
  (of_int (pts frame) * av_q2d (time_base inlink))%D.

(** The input pad. *)
Definition filter_frame (inlink : AVFilterLink) (editing : EditingContext D)
    (w : World DS) (frame : AVFrame) : Z * EditingContext D * World DS :=
  match current editing with
  | [] => discard editing w frame
  | cur :: next =>
      let frame_in_ts := frame_in_ts inlink frame in
      if (ts_prev editing >? frame_in_ts)%D
      then (AVERROR EINVAL, editing, av_frame_free w frame)
      else
        let frame_out_ts := (ts_base editing + (frame_in_ts - start cur))%D in
        if (frame_in_ts >=? end_ cur)%D
        then discard
               {| opt_segments := opt_segments editing;
                  ts_base := frame_out_ts; ts_prev := frame_in_ts;
                  frame_out := frame_out editing;
                  current := next; segments := segments editing |} w frame
        else
          let editing :=
            {| opt_segments := opt_segments editing;
               ts_base := ts_base editing; ts_prev := frame_in_ts;
               frame_out := frame_out editing;
               current := current editing; segments := segments editing |} in
          if (frame_in_ts <=? start cur)%D
          then discard editing w frame
          else
            let frame :=
              {| pts := to_int64 (frame_out_ts / av_q2d (time_base inlink))%D;
                 nb_samples := nb_samples frame |} in
            let (ret, w) := ff_filter_frame w frame in
            (ret, set_frame_out editing (if ret =? 0 then 1 else 0), w)
  end.

(** The output pad: [ups] is what the successive pulls do upstream.
    [None]: the pulls listed did not suffice. *)
Fixpoint request_loop (ups : list Upstream) (inlink : AVFilterLink)
    (editing : EditingContext D) (w : World DS)
  : option (Z * EditingContext D * World DS) :=
  match ups with
  | [] => None
  | up :: ups' =>
      let '(ret, editing, w) :=
        match up with
        | UpFrame frame => filter_frame inlink editing w frame
        | UpReturn ret => (ret, editing, w)
        end in
      if ret <? 0 then Some (ret, editing, w)
      else if frame_out editing =? 0 then request_loop ups' inlink editing w
      else Some (0, editing, w)
  end.

Definition request_frame (ups : list Upstream) (inlink : AVFilterLink)
    (editing : EditingContext D) (w : World DS)
  : option (Z * EditingContext D * World DS) :=
  match current editing with
  | [] => Some (AVERROR_EOF, editing, w)
  | _ :: _ => request_loop ups inlink editing w
  end.

(** The loop of [parse_segments]: [j] is the last segment linked, [segs]
    the list linked so far, [n] the rest of the description. Every turn
    shortens [n]; [None]: out of fuel. *)
Fixpoint parse_loop (fuel : nat) (j : option (MediaSegment D))
    (segs : list (MediaSegment D)) (n : option string)
  : option (Z * list (MediaSegment D)) :=
  match fuel with
  | O => None
  | S fuel' =>
      let (p, n) := strsep n "-" in
      match p with
      | None => Some (AVERROR EINVAL, segs)
      | Some p =>
          let seg_start := atof p in
          if match j with
             | Some j => (seg_start <? end_ j)%D
             | None => false
             end
          then Some (AVERROR EINVAL, segs)
          else
            let (p, n) := strsep n "#" in
            match p with
            | None => Some (AVERROR EINVAL, segs)
            | Some p =>
                let seg_end := atof p in
                if (seg_start >=? seg_end)%D
                then Some (AVERROR EINVAL, segs)
                else
                  let segment := {| start := seg_start; end_ := seg_end |} in
                  match n with
                  | Some _ =>
                      parse_loop fuel' (Some segment) (segs ++ [segment]) n
                  | None => Some (0, segs ++ [segment])
                  end
            end
      end
  end.

(** [parse_segments]: the value returned and [editing->segments]. *)
Definition parse_segments (opt : option string)
  : option (Z * list (MediaSegment D)) :=
  match opt with
  | None => Some (AVERROR EINVAL, [])
  | Some s => parse_loop (S (String.length s)) None [] (Some s)
  end.

(** [init]: the value returned and the context. *)
Definition init (opt : option string) : option (Z * EditingContext D) :=
  match parse_segments opt with
  | None => None
  | Some (ret, segs) =>
      if ret <? 0
      then Some (ret, {| opt_segments := opt; ts_base := of_int 0;
                         ts_prev := of_int 0; frame_out := 0;
                         current := []; segments := segs |})
      else Some (0, {| opt_segments := opt; ts_base := of_int 0;
                       ts_prev := of_int 0; frame_out := 0;
                       current := segs; segments := segs |})
  end.

(** A run of frame arrivals: the values returned, in order, and the state
    after the last one. *)
Fixpoint deliveries (inlink : AVFilterLink) (editing : EditingContext D)
    (w : World DS) (frames : list AVFrame)
  : list Z * EditingContext D * World DS :=
  match frames with
  | [] => ([], editing, w)
  | frame :: frames' =>
      let '(ret, editing', w') := filter_frame inlink editing w frame in
      let '(rets, editing'', w'') := deliveries inlink editing' w' frames' in
      (ret :: rets, editing'', w'')
  end.

End Stage.
End Editing.

(* ================================================================== *)
(** * Collaborators used to run the stages *)

(** A filter downstream that returns the same code for every frame; its state
    is that code. *)
#[export] Instance const_sink : Downstream Z := fun code _ => (code, code).

Definition empty_world (code : Z) : World Z :=
  {| sink := code; forwarded := []; freed := [] |}.

(** libc's [atof] on plain decimal numerals: blanks, a sign, digits, a point
    and digits; what follows is ignored and a string without digits reads
    as 0. Exponents, hexadecimal numerals, "inf" and "nan" are left out. *)
Module Atof.

Definition digit_of (c : ascii) : option Z :=
  let n := Z.of_nat (nat_of_ascii c) in
  if (48 <=? n) && (n <=? 57) then Some (n - 48) else None.

(** The digits at the head of [s]: [m] extended by them, their number added
    to [k], and the rest of [s]. *)
Fixpoint digits (s : string) (m : Z) (k : Z) : Z * Z * string :=
  match s with
  | EmptyString => (m, k, s)
  | String c s' =>
      match digit_of c with
      | Some d => digits s' (10 * m + d) (k + 1)
      | None => (m, k, s)
      end
  end.

Fixpoint skip_blanks (s : string) : string :=
  match s with
  | String c s' => if Ascii.eqb c " " then skip_blanks s' else s
  | EmptyString => s
  end.

Definition atof {D} `{DoubleOps D} (s : string) : D :=
  let s := skip_blanks s in
  let (sign, s) :=
    match s with
    | String "-" s' => (-1, s')
    | String "+" s' => (1, s')
    | _ => (1, s)
    end in
  let '(m, _, s) := digits s 0 0 in
  match s with
  | String "." s' =>
      let '(m, k, _) := digits s' m 0 in
      (of_int (sign * m) / of_int (10 ^ k))%D
  | _ => of_int (sign * m)
  end.

End Atof.

(* ================================================================== *)
(** * Notions the properties are stated with *)

Module Props.
Import Fifo.

Section Stabilizer.
Context {D : Type} `{DoubleOps D} {DS : Type} `{Downstream DS}.

(** The resolution step emitted [F]: [F] went downstream, the cadence
    registers are those of [F], the rest of the queue stays, and the value
    returned is the one the filter downstream returned. *)
Definition emitted (inlink : AVFilterLink) (fixpts : FixPts.FixPtsContext D)
    (w : World DS) (F : AVFrame) (rest : list AVFrame)
  : option (Z * FixPts.FixPtsContext D * World DS) :=
  Some (snd (deliver (sink w) F),
        {| FixPts.bufsize := FixPts.bufsize fixpts;
           FixPts.maxbufsize := FixPts.maxbufsize fixpts;
           FixPts.last_ts := FixPts.frame_ts inlink F;
           FixPts.last_nb_samples := nb_samples F;
           FixPts.tolerance := FixPts.tolerance fixpts;
           FixPts.fifo := rest |},
        {| sink := fst (deliver (sink w) F);
           forwarded := forwarded w ++ [F];
           freed := freed w |}).

(** The resolution step dropped [F] and the [k] frames behind it: they were
    freed, nothing went downstream, the registers are untouched and the
    queue starts at position [k] of [rest]. *)
Definition dropped (fixpts : FixPts.FixPtsContext D) (w : World DS)
    (F : AVFrame) (rest : list AVFrame) (k : nat)
  : option (Z * FixPts.FixPtsContext D * World DS) :=
  Some (0, FixPts.set_fifo fixpts (skipn k rest),
        {| sink := sink w; forwarded := forwarded w;
           freed := freed w ++ firstn k rest ++ [F] |}).

(** What every frame arrival keeps: the queue is below its capacity. *)
Definition below_capacity (fixpts : FixPts.FixPtsContext D) : Prop :=
  FixPts.maxbufsize fixpts = sizeof_ptr * FixPts.bufsize fixpts /\
  Z.of_nat (List.length (FixPts.fifo fixpts)) < FixPts.bufsize fixpts.

End Stabilizer.

Section Selector.
Context {D : Type} `{DoubleOps D}.

(** The invariant of a segment: [start < end]. *)
Definition segment_ok (s : Editing.MediaSegment D) : bool :=
  (Editing.start s <? Editing.end_ s)%D.

(** The invariant of a segment list, [prev] being the end of the segment
    before it: every [start < end], every [start >=] the end before. *)
Fixpoint segments_ok (prev : option D) (l : list (Editing.MediaSegment D))
  : bool :=
  match l with
  | [] => true
  | s :: l' =>
      segment_ok s
      && match prev with
         | Some e => (Editing.start s >=? e)%D
         | None => true
         end
      && segments_ok (Some (Editing.end_ s)) l'
  end.

(** The segments read from a list of pairs of bounds. *)
Definition segments_of (atof : string -> D) (l : list (string * string))
  : list (Editing.MediaSegment D) :=
  map (fun p => {| Editing.start := atof (fst p);
                   Editing.end_ := atof (snd p) |}) l.

(** [parse_segments] failed with the configuration error. *)
Definition rejected (r : option (Z * list (Editing.MediaSegment D))) : Prop :=
  exists segs, r = Some (AVERROR EINVAL, segs).




(** Seconds on the output timeline, in ticks of the link. *)
Definition ticks (inlink : AVFilterLink) (x : D) : Z :=
  to_int64 (x / av_q2d (time_base inlink))%D.


End Selector.

(** [c] does not occur in [s]. *)
Fixpoint free_of (c : ascii) (s : string) : bool :=
  match s with
  | EmptyString => true
  | String c' s' => negb (Ascii.eqb c' c) && free_of c s'
  end.

(** The bounds of a pair hold no delimiter that would end them early. *)
Definition delimited (p : string * string) : Prop :=
  free_of "-" (fst p) = true /\ free_of "#" (snd p) = true.

(** The bounds of a pair read as numbers. *)
Definition numeric {D} `{DoubleOps D} (atof : string -> D)
    (p : string * string) : Prop :=
  is_num (atof (fst p)) = true /\ is_num (atof (snd p)) = true.

(** The description [start-end#start-end#...] of a list of pairs of
    bounds; with [Some t], a last piece [t] follows the pairs. *)
Fixpoint description (l : list (string * string)) (last : option string)
  : string :=
  match l with
  | [] => match last with Some t => t | None => EmptyString end
  | (s, e) :: l' =>
      (s ++ String "-"
         (e ++ match l', last with
               | [], None => EmptyString
               | _, _ => String "#" (description l' last)
               end))%string
  end.

End Props.

(* ================================================================== *)
(** * The scenario of the description: segments 1.0-2.0 and 3.0-4.0,
      frames at 0.5, 1.5, 2.5, 3.5 and 4.5 seconds *)

Module Scenario.

(** A time base of half a second: the frames are at 1, 3, 5, 7 and 9
    ticks. *)
Definition inlink : AVFilterLink :=
  {| type := AVMEDIA_TYPE_VIDEO;
     time_base := {| num := 1; den := 2 |};
     frame_rate := {| num := 1; den := 1 |};
     sample_rate := 0 |}.

Definition frame_at (ticks : Z) : AVFrame :=
  {| pts := ticks; nb_samples := 0 |}.

Definition frames : list AVFrame := map frame_at [1; 3; 5; 7; 9].

Definition opt_segments : option string := Some "1.0-2.0#3.0-4.0"%string.

(** The selector [init] leaves. *)
Definition fresh {D} `{DoubleOps D} : Editing.EditingContext D :=
  match Editing.init Atof.atof opt_segments with
  | Some (_, editing) => editing
  | None =>
      {| Editing.opt_segments := opt_segments;
         Editing.ts_base := of_int 0; Editing.ts_prev := of_int 0;
         Editing.frame_out := 0;
         Editing.current := []; Editing.segments := [] |}
  end.

(** The selector after [init] and the first [n] frames, the filter
    downstream accepting every frame. *)
Definition run {D} `{DoubleOps D} (n : nat)
  : option (list Z * Editing.EditingContext D * World Z) :=
  match Editing.init Atof.atof opt_segments with
  | Some (_, editing) =>
      Some (Editing.deliveries inlink editing (empty_world 0)
              (firstn n frames))
  | None => None
  end.

End Scenario.

(* ================================================================== *)
(** * Inputs for the stabilizer *)

Module Examples.

(** A video link at 25 frames a second, one tick a frame. *)
Definition video : AVFilterLink :=
  {| type := AVMEDIA_TYPE_VIDEO;
     time_base := {| num := 1; den := 25 |};
     frame_rate := {| num := 25; den := 1 |};
     sample_rate := 0 |}.

Definition frame_at (ticks : Z) : AVFrame :=
  {| pts := ticks; nb_samples := 0 |}.

(** The default tolerance, 0.0000001. *)
Definition tolerance {D} `{DoubleOps D} : D :=
  (of_int 1 / of_int 10000000)%D.

(** A stabilizer that has emitted the frame at tick 0 and holds the frames
    at ticks 10, 5, 1 and 2: the frame at tick 1 is the one on cadence. *)
Definition jittered {D} `{DoubleOps D} : FixPts.FixPtsContext D :=
  FixPts.set_fifo (FixPts.init 4 tolerance) (map frame_at [10; 5; 1; 2]).

(** A stabilizer with the default capacity after the arrival of the frames
    at ticks 1 and 2, the filter downstream returning [code]. *)
Definition two_queued {D} `{DoubleOps D} (code : Z)
  : option (list Z * FixPts.FixPtsContext D * World Z) :=
  FixPts.deliveries video (FixPts.init 96 tolerance) (empty_world code)
    (map frame_at [1; 2]).

(** [AVERROR(EIO)] *)
Definition EIO_error : Z := AVERROR 5.

End Examples.

(* ================================================================== *)
(** * Notions for runs of the two stages *)

Module Runs.
Import Fifo.

(** [l1] is [l2] with some elements left out, the order kept. *)
Inductive subseq {A : Type} : list A -> list A -> Prop :=
  | subseq_nil : subseq [] []
  | subseq_skip (x : A) (l1 l2 : list A) :
      subseq l1 l2 -> subseq l1 (x :: l2)
  | subseq_take (x : A) (l1 l2 : list A) :
      subseq l1 l2 -> subseq (x :: l1) (x :: l2).

Section Stabilizer.
Context {D : Type} `{DoubleOps D} {DS : Type} `{Downstream DS}.

(** [n] pulls in a row, each finding end of stream upstream: the values
    returned, in order, and the state after the last one. *)
Fixpoint eof_pulls (n : nat) (inlink : AVFilterLink)
    (fixpts : FixPts.FixPtsContext D) (w : World DS)
  : option (list Z * FixPts.FixPtsContext D * World DS) :=
  match n with
  | O => Some ([], fixpts, w)
  | S n' =>
      match FixPts.request_frame (UpReturn AVERROR_EOF) inlink fixpts w with
      | None => None
      | Some (ret, fixpts', w') =>
          match eof_pulls n' inlink fixpts' w' with
          | None => None
          | Some (rets, fixpts'', w'') => Some (ret :: rets, fixpts'', w'')
          end
      end
  end.

(** The registers [submit_and_exit] writes for [frame]. *)
Definition submitted (inlink : AVFilterLink)
    (fixpts : FixPts.FixPtsContext D) (frame : AVFrame)
  : FixPts.FixPtsContext D :=
  {| FixPts.bufsize := FixPts.bufsize fixpts;
     FixPts.maxbufsize := FixPts.maxbufsize fixpts;
     FixPts.last_ts := FixPts.frame_ts inlink frame;
     FixPts.last_nb_samples := nb_samples frame;
     FixPts.tolerance := FixPts.tolerance fixpts;
     FixPts.fifo := FixPts.fifo fixpts |}.

(** Every frame of [frames] is within the tolerance of the cadence set by
    the frame before it, the first one of the cadence in [fixpts]. *)
Fixpoint on_cadence (inlink : AVFilterLink)
    (fixpts : FixPts.FixPtsContext D) (frames : list AVFrame) : bool :=
  match frames with
  | [] => true
  | frame :: frames' =>
      (FixPts.gap inlink fixpts frame <? FixPts.tolerance fixpts)%D
      && on_cadence inlink (submitted inlink fixpts frame) frames'
  end.

(** The cadence registers are those of the last frame handed downstream, or
    those [init] wrote if none was. *)
Definition registers_follow (inlink : AVFilterLink)
    (fixpts : FixPts.FixPtsContext D) (w : World DS) : Prop :=
  (forwarded w = [] /\
   FixPts.last_ts fixpts = of_int 0 /\ FixPts.last_nb_samples fixpts = 0)
  \/
  (exists l F,
     forwarded w = l ++ [F] /\
     FixPts.last_ts fixpts = FixPts.frame_ts inlink F /\
     FixPts.last_nb_samples fixpts = nb_samples F).

End Stabilizer.

Section Selector.
Context {D : Type} `{DoubleOps D}.

(** The two tests [parse_segments] makes on each segment, [prev] being the
    end of the segment linked before it. *)
Fixpoint linked (prev : option D) (l : list (Editing.MediaSegment D)) : bool :=
  match l with
  | [] => true
  | s :: l' =>
      negb match prev with
           | Some e => (Editing.start s <? e)%D
           | None => false
           end
      && negb (Editing.start s >=? Editing.end_ s)%D
      && linked (Some (Editing.end_ s)) l'
  end.

(** Both bounds of a segment are numbers. *)
Definition bounds_num (s : Editing.MediaSegment D) : Prop :=
  is_num (Editing.start s) = true /\ is_num (Editing.end_ s) = true.


End Selector.
End Runs.

(* ================================================================== *)
(** * The comparisons of binary64 and of the rationals *)

Unset Implicit Arguments.

Module Binary64Facts.

Lemma SFcompare_antisym (a b : spec_float) :
  SFcompare b a = option_map CompOpp (SFcompare a b).
Proof.
  destruct a as [sa|sa| |sa ma ea], b as [sb|sb| |sb mb eb]; simpl;
    try reflexivity;
    try (destruct sa; reflexivity); try (destruct sb; reflexivity);
    try (destruct sa, sb; reflexivity).
  change (Pos.compare_cont Eq) with Pos.compare.
  destruct sa, sb; try reflexivity;
    rewrite (Z.compare_antisym ea eb), (Pos.compare_antisym ma mb);
    destruct (ea ?= eb); simpl; try reflexivity;
    destruct (ma ?= mb)%positive; reflexivity.
Qed.

Lemma SFcompare_Lt_trans (a b c : spec_float) :
  SFcompare a b = Some Lt -> SFcompare b c = Some Lt ->
  SFcompare a c = Some Lt.
Proof.
  destruct a as [sa|sa| |sa ma ea], b as [sb|sb| |sb mb eb],
           c as [sc|sc| |sc mc ec]; simpl;
    try discriminate;
    try (destruct sa; try discriminate);
    try (destruct sb; try discriminate);
    try (destruct sc; try discriminate); try reflexivity.
  all: intros H1 H2; injection H1 as H1; injection H2 as H2; f_equal.
  all: change (Pos.compare_cont Eq) with Pos.compare in *.
  all: destruct (Z.compare_spec ea eb), (Z.compare_spec eb ec);
       try discriminate; subst.
  all: repeat match goal with
       | |- context [Z.compare ?x ?y] =>
           destruct (Z.compare_spec x y); try lia
       end; try reflexivity.
  all: destruct (Pos.compare_spec ma mb), (Pos.compare_spec mb mc);
       try discriminate; subst.
  all: destruct (Pos.compare_spec ma mc); try lia; reflexivity.
Qed.

(** A float that is [<=] itself is comparable with every such float. *)
Lemma SFcompare_num (a b : spec_float) :
  SFleb a a = true -> SFleb b b = true -> exists c, SFcompare a b = Some c.
Proof.
  unfold SFleb.
  destruct a as [sa|sa| |sa ma ea], b as [sb|sb| |sb mb eb]; simpl;
    try discriminate; intros _ _; eexists; reflexivity.
Qed.

Lemma ltb_trans (a b c : float) :
  PrimFloat.ltb a b = true -> PrimFloat.ltb b c = true ->
  PrimFloat.ltb a c = true.
Proof.
  rewrite !FloatAxioms.ltb_spec. unfold SFltb.
  destruct (SFcompare (Prim2SF a) (Prim2SF b)) as [[]|] eqn:E1;
    try discriminate.
  destruct (SFcompare (Prim2SF b) (Prim2SF c)) as [[]|] eqn:E2;
    try discriminate.
  now rewrite (SFcompare_Lt_trans _ _ _ E1 E2).
Qed.

Lemma ltb_not_geb (a b : float) :
  PrimFloat.ltb a b = true -> PrimFloat.leb b a = false.
Proof.
  rewrite FloatAxioms.ltb_spec, FloatAxioms.leb_spec. unfold SFltb, SFleb.
  rewrite (SFcompare_antisym (Prim2SF a) (Prim2SF b)).
  destruct (SFcompare (Prim2SF a) (Prim2SF b)) as [[]|];
    try discriminate; reflexivity.
Qed.

Lemma ltb_negb_geb (a b : float) :
  PrimFloat.leb a a = true -> PrimFloat.leb b b = true ->
  PrimFloat.ltb a b = negb (PrimFloat.leb b a).
Proof.
  rewrite FloatAxioms.ltb_spec, !FloatAxioms.leb_spec. intros Ha Hb.
  destruct (SFcompare_num _ _ Ha Hb) as [c Hc].
  unfold SFltb, SFleb.
  rewrite (SFcompare_antisym (Prim2SF a) (Prim2SF b)), Hc.
  destruct c; reflexivity.
Qed.

Lemma SFcompare_Lt_Eq_trans (a b c : spec_float) :
  SFcompare a b = Some Lt -> SFcompare b c = Some Eq ->
  SFcompare a c = Some Lt.
Proof.
  destruct a as [sa|sa| |sa ma ea], b as [sb|sb| |sb mb eb],
           c as [sc|sc| |sc mc ec]; simpl;
    try discriminate;
    try (destruct sa; try discriminate);
    try (destruct sb; try discriminate);
    try (destruct sc; try discriminate); try reflexivity.
  all: intros H1 H2; injection H1 as H1; injection H2 as H2; f_equal.
  all: change (Pos.compare_cont Eq) with Pos.compare in *.
  all: destruct (Z.compare_spec ea eb), (Z.compare_spec eb ec);
       try discriminate; subst.
  all: repeat match goal with
       | |- context [Z.compare ?x ?y] =>
           destruct (Z.compare_spec x y); try lia
       end; try reflexivity.
  all: destruct (Pos.compare_spec ma mb), (Pos.compare_spec mb mc);
       try discriminate; subst.
  all: destruct (Pos.compare_spec ma mc); try lia; reflexivity.
Qed.

Lemma ltb_leb_trans (a b c : float) :
  PrimFloat.ltb a b = true -> PrimFloat.leb b c = true ->
  PrimFloat.ltb a c = true.
Proof.
  rewrite !FloatAxioms.ltb_spec, FloatAxioms.leb_spec. unfold SFltb, SFleb.
  destruct (SFcompare (Prim2SF a) (Prim2SF b)) as [[]|] eqn:E1;
    try discriminate.
  destruct (SFcompare (Prim2SF b) (Prim2SF c)) as [[]|] eqn:E2;
    try discriminate; intros _ _.
  - now rewrite (SFcompare_Lt_Eq_trans _ _ _ E1 E2).
  - now rewrite (SFcompare_Lt_trans _ _ _ E1 E2).
Qed.

End Binary64Facts.

#[export] Instance binary64_cmp : CmpLaws float.
Proof.
  split; simpl.
  - exact Binary64Facts.ltb_trans.
  - exact Binary64Facts.ltb_leb_trans.
  - exact Binary64Facts.ltb_not_geb.
  - exact Binary64Facts.ltb_negb_geb.
Qed.

Module ExactQFacts.

Lemma ltb_lt (x y : Q) : ExactQ.ltb x y = true <-> (x < y)%Q.
Proof.
  unfold ExactQ.ltb. rewrite negb_true_iff, <- not_true_iff_false.
  rewrite Qle_bool_iff. split.
  - apply Qnot_le_lt.
  - apply Qlt_not_le.
Qed.

Lemma quot_mono (a c : Z) (b d : positive) :
  a * Z.pos d <= c * Z.pos b -> Z.quot a (Z.pos b) <= Z.quot c (Z.pos d).
Proof.
  intros Hle.
  assert (Hfloor : forall a c b d : Z, 0 < b -> 0 < d -> 0 <= a ->
            a * d <= c * b -> a / b <= c / d).
  { intros a0 c0 b0 d0 Hb Hd Ha H0.
    rewrite <- (Z.div_mul_cancel_r a0 b0 d0) by lia.
    rewrite <- (Z.div_mul_cancel_r c0 d0 b0) by lia.
    replace (d0 * b0) with (b0 * d0) by apply Z.mul_comm.
    apply Z.div_le_mono; [apply Z.mul_pos_pos; lia | exact H0]. }
  destruct (Z.le_gt_cases 0 a) as [Ha|Ha].
  - assert (0 <= c) by nia.
    rewrite !Z.quot_div_nonneg by lia.
    apply Hfloor; lia.
  - destruct (Z.le_gt_cases 0 c) as [Hc|Hc].
    + transitivity 0.
      * apply Z.quot_le_upper_bound; lia.
      * apply Z.quot_pos; lia.
    + replace a with (- (- a)) by lia. replace c with (- (- c)) by lia.
      rewrite (Z.quot_opp_l (- a)), (Z.quot_opp_l (- c)) by lia.
      rewrite !Z.quot_div_nonneg by lia.
      apply -> Z.opp_le_mono.
      apply Hfloor; lia.
Qed.

End ExactQFacts.

#[export] Instance exactQ_cmp : CmpLaws Q.
Proof.
  split; simpl.
  - intros a b c. rewrite !ExactQFacts.ltb_lt. apply Qlt_trans.
  - intros a b c. rewrite !ExactQFacts.ltb_lt, Qle_bool_iff.
    apply Qlt_le_trans.
  - intros a b. unfold ExactQ.ltb. now rewrite negb_true_iff.
  - reflexivity.
Qed.

#[export] Instance exactQ_exact : ExactLaws Q.
Proof.
  split; simpl.
  - intros a. apply Qle_bool_iff, Qle_refl.
  - intros a b. rewrite !Qle_bool_iff.
    destruct (Qlt_le_dec a b) as [Hlt|Hle]; [left; apply Qlt_le_weak|right];
      assumption.
  - intros a b c. rewrite !Qle_bool_iff. apply Qle_trans.
  - reflexivity.
  - intros a b s. rewrite !Qle_bool_iff. intros Hab.
    apply Qplus_le_compat; [exact Hab | apply Qle_refl].
  - intros a s. rewrite !Qle_bool_iff. intros Hsa.
    now apply -> Qle_minus_iff.
  - intros b x y. rewrite !Qle_bool_iff. intros Hxy.
    apply Qplus_le_compat; [apply Qle_refl | exact Hxy].
  - intros b x. rewrite !Qle_bool_iff. intros Hx.
    rewrite <- (Qplus_0_r b) at 1.
    apply Qplus_le_compat; [apply Qle_refl | exact Hx].
  - intros q x y. rewrite ExactQFacts.ltb_lt, !Qle_bool_iff. intros Hq Hxy.
    apply Qmult_le_compat_r; [exact Hxy |].
    apply Qlt_le_weak, Qinv_lt_0_compat, Hq.
  - intros x y. rewrite Qle_bool_iff. unfold Qle, ExactQ.to_int64.
    apply ExactQFacts.quot_mono.
Qed.

(* ================================================================== *)
(** * The timestamp stabilizer *)

Module FixPtsFacts.
Import Fifo FixPts Props.

Ltac fifo_lia := change sizeof_ptr with 8 in *; lia.

Section Facts.
Context {D : Type} `{DoubleOps D} {DS : Type} `{Downstream DS}.

Lemma gap_set_fifo inlink (fixpts : FixPtsContext D) f c :
  gap inlink (set_fifo fixpts f) c = gap inlink fixpts c.
Proof. reflexivity. Qed.

Lemma av_fifo_size_nonneg (f : AVFifoBuffer) : 0 <= av_fifo_size f.
Proof. unfold av_fifo_size, sizeof_ptr. lia. Qed.

Lemma av_fifo_drain_skipn (f : AVFifoBuffer) (k : nat) :
  av_fifo_drain f (sizeof_ptr * Z.of_nat k) = skipn k f.
Proof.
  unfold av_fifo_drain, sizeof_ptr.
  rewrite Z.mul_comm, Z.div_mul by lia. now rewrite Nat2Z.id.
Qed.

(** The frame at byte offset [sizeof_ptr * k] is the one at position [k]. *)
Lemma av_fifo_peek2_nth (f : AVFifoBuffer) (k : nat) :
  av_fifo_peek2 f (sizeof_ptr * Z.of_nat k) = nth_error f k.
Proof.
  unfold av_fifo_peek2, sizeof_ptr.
  rewrite Z.mul_comm, Z.div_mul by lia. now rewrite Nat2Z.id.
Qed.

(** The freeing loop frees the [k] frames at the offsets below
    [sizeof_ptr * k], in order, and nothing else. *)
Lemma free_cached_firstn (cached : list AVFrame) :
  forall (k : nat) (i : Z) (w : World DS),
    (k <= List.length cached)%nat ->
    free_cached cached i (i + sizeof_ptr * Z.of_nat k) w =
    {| sink := sink w; forwarded := forwarded w;
       freed := freed w ++ firstn k cached |}.
Proof.
  unfold sizeof_ptr.
  induction cached as [|c cached IH]; intros k i w Hk;
    cbn [free_cached List.length] in *.
  - replace k with O by lia. simpl. rewrite app_nil_r. now destruct w.
  - destruct (Z.ltb_spec i (i + 8 * Z.of_nat k)) as [Hlt|Hge].
    + destruct k as [|k]; [lia|].
      replace (i + 8 * Z.of_nat (S k)) with (i + 8 + 8 * Z.of_nat k) by lia.
      unfold sizeof_ptr. rewrite IH by lia. simpl. now rewrite <- app_assoc.
    + replace k with O by lia. simpl. rewrite app_nil_r. now destruct w.
Qed.


Lemma submit_and_exit_emitted inlink (fixpts : FixPtsContext D)
    (w : World DS) F rest :
  submit_and_exit inlink (set_fifo fixpts rest) w F =
  (snd (deliver (sink w) F),
   {| bufsize := bufsize fixpts; maxbufsize := maxbufsize fixpts;
      last_ts := frame_ts inlink F; last_nb_samples := nb_samples F;
      tolerance := tolerance fixpts; fifo := rest |},
   {| sink := fst (deliver (sink w) F);
      forwarded := forwarded w ++ [F]; freed := freed w |}).
Proof.
  unfold submit_and_exit, ff_filter_frame. simpl.
  now destruct (deliver (sink w) F).
Qed.

(** The drain size and the best gap the scan ends with never lie outside
    the queue. *)
Lemma scan_bounds inlink (fixpts : FixPtsContext D) (cached : list AVFrame) :
  forall i d b,
    0 <= i -> 0 <= d <= i ->
    0 <= fst (scan inlink fixpts cached i d b)
      <= i + sizeof_ptr * Z.of_nat (List.length cached).
Proof.
  unfold sizeof_ptr.
  induction cached as [|c cached IH]; intros i d b Hi Hd; simpl.
  - lia.
  - destruct (gap inlink fixpts c <? b)%D.
    + specialize (IH (i + sizeof_ptr) i (gap inlink fixpts c)).
      unfold sizeof_ptr in *. lia.
    + specialize (IH (i + sizeof_ptr) d b). unfold sizeof_ptr in *. lia.
Qed.

End Facts.

Section Scan.
Context {D : Type} `{CmpLaws D} {DS : Type} `{Downstream DS}.

(** Where the scan stops: either no queued frame has a gap below [b] and
    the scan leaves [d] and [b] alone, or it ends on the first frame that
    has the least gap, which is below [b]. *)
Lemma scan_spec inlink (fixpts : FixPtsContext D) (cached : list AVFrame) :
  forall i d b,
    is_num b = true ->
    Forall (fun c => is_num (gap inlink fixpts c) = true) cached ->
    (scan inlink fixpts cached i d b = (d, b) /\
     forall c, In c cached -> (gap inlink fixpts c <? b)%D = false)
    \/
    (exists k c,
       nth_error cached k = Some c /\
       scan inlink fixpts cached i d b =
         (i + sizeof_ptr * Z.of_nat k, gap inlink fixpts c) /\
       (gap inlink fixpts c <? b)%D = true /\
       (forall j c', (j < k)%nat -> nth_error cached j = Some c' ->
          (gap inlink fixpts c <? gap inlink fixpts c')%D = true) /\
       (forall j c', (k < j)%nat -> nth_error cached j = Some c' ->
          (gap inlink fixpts c' <? gap inlink fixpts c)%D = false)).
Proof.
  induction cached as [|c0 cached IH]; intros i d b Hb Hall; cbn [scan].
  - left. split; [reflexivity | intros c []].
  - inversion Hall as [|? ? Hc0 Hall']; subst.
    destruct (gap inlink fixpts c0 <? b)%D eqn:Hlt.
    + right.
      destruct (IH (i + sizeof_ptr) i (gap inlink fixpts c0) Hc0 Hall')
        as [[Hscan Hnone] | (k & c & Hnth & Hscan & Hck & Hbefore & Hafter)].
      * exists O, c0. rewrite Hscan.
        split; [|split; [|split; [|split]]].
        -- reflexivity.
        -- f_equal. fifo_lia.
        -- exact Hlt.
        -- intros j c' Hj. lia.
        -- intros [|j] c' Hj Hnth; [lia|]. simpl in Hnth.
           apply Hnone. eapply nth_error_In, Hnth.
      * exists (S k), c. rewrite Hscan.
        split; [|split; [|split; [|split]]].
        -- exact Hnth.
        -- f_equal. fifo_lia.
        -- eapply dltb_trans; eassumption.
        -- intros [|j] c' Hj Hnth'; simpl in Hnth'.
           ++ now injection Hnth' as <-.
           ++ apply (Hbefore j); [lia | exact Hnth'].
        -- intros [|j] c' Hj Hnth'; [lia|]. simpl in Hnth'.
           apply (Hafter j); [lia | exact Hnth'].
    + destruct (IH (i + sizeof_ptr) d b Hb Hall')
        as [[Hscan Hnone] | (k & c & Hnth & Hscan & Hck & Hbefore & Hafter)].
      * left. split; [exact Hscan|].
        intros c [<-|Hin]; [exact Hlt | now apply Hnone].
      * right. exists (S k), c. rewrite Hscan.
        split; [|split; [|split; [|split]]].
        -- exact Hnth.
        -- f_equal. fifo_lia.
        -- exact Hck.
        -- intros [|j] c' Hj Hnth'; simpl in Hnth'.
           ++ injection Hnth' as <-.
              apply (dltb_leb_trans _ b); [exact Hck|].
              rewrite (dltb_negb_geb _ _ Hc0 Hb) in Hlt.
              now apply negb_false_iff in Hlt.
           ++ apply (Hbefore j); [lia | exact Hnth'].
        -- intros [|j] c' Hj Hnth'; [lia|]. simpl in Hnth'.
           apply (Hafter j); [lia | exact Hnth'].
Qed.

End Scan.
End FixPtsFacts.

Module Resolution.
Import Fifo FixPts Props FixPtsFacts.

Section Claims.
Context {D : Type} `{CmpLaws D} {DS : Type} `{Downstream DS}.


End Claims.


End Resolution.

Module Cadence.
Import Fifo FixPts Props FixPtsFacts.

Section Claims.
Context {D : Type} `{DoubleOps D} {DS : Type} `{Downstream DS}.


End Claims.


End Cadence.

Module Capacity.
Import Fifo FixPts Props FixPtsFacts.

Section Claims.
Context {D : Type} `{DoubleOps D} {DS : Type} `{Downstream DS}.

(** The resolution step takes at least the oldest frame off the queue and
    leaves the configuration alone. *)
Lemma process_next_frame_shrinks (inlink : AVFilterLink)
    (fixpts fixpts' : FixPtsContext D) (w w' : World DS) (ret : Z) :
  process_next_frame inlink fixpts w = Some (ret, fixpts', w') ->
  (List.length (fifo fixpts') < List.length (fifo fixpts))%nat /\
  bufsize fixpts' = bufsize fixpts /\
  maxbufsize fixpts' = maxbufsize fixpts.
Proof.
  unfold process_next_frame.
  destruct (fifo fixpts) as [|F rest]; [discriminate|].
  cbn [av_fifo_generic_read]. rewrite submit_and_exit_emitted.
  destruct (gap inlink (set_fifo fixpts rest) F <? _)%D.
  - intros Hr. injection Hr as <- <- <-. simpl. auto.
  - destruct (scan _ _ _ _ _ _) as [drain_size best_gap].
    destruct (best_gap >=? _)%D; intros Hr; injection Hr as <- <- <-;
      simpl; auto.
    unfold av_fifo_drain. rewrite length_skipn. split; [lia | auto].
Qed.

Lemma process_next_frame_some (inlink : AVFilterLink)
    (fixpts : FixPtsContext D) (w : World DS) :
  fifo fixpts <> [] ->
  exists ret fixpts' w',
    process_next_frame inlink fixpts w = Some (ret, fixpts', w').
Proof.
  unfold process_next_frame.
  destruct (fifo fixpts) as [|F rest]; [congruence|]. intros _.
  cbn [av_fifo_generic_read].
  destruct (gap inlink (set_fifo fixpts rest) F <? _)%D.
  - destruct (submit_and_exit _ _ _ _) as [[ret c] w']. eauto.
  - destruct (scan _ _ _ _ _ _) as [drain_size best_gap].
    destruct (best_gap >=? _)%D; [|eauto].
    destruct (submit_and_exit _ _ _ _) as [[ret c] w']. eauto.
Qed.

Lemma filter_frame_below_capacity (inlink : AVFilterLink)
    (fixpts : FixPtsContext D) (w : World DS) (frame : AVFrame) :
  below_capacity fixpts ->
  exists fixpts' w',
    filter_frame inlink fixpts w frame = Some (0, fixpts', w') /\
    below_capacity fixpts' /\ bufsize fixpts' = bufsize fixpts.
Proof.
  intros [Hmax Hlen]. unfold filter_frame, av_fifo_size.
  destruct (Z.ltb_spec (sizeof_ptr * Z.of_nat (List.length (fifo fixpts)))
              (maxbufsize fixpts)) as [_|Hge]; [|fifo_lia].
  set (fixpts1 := set_fifo fixpts (av_fifo_generic_write (fifo fixpts) frame)).
  assert (Hlen1 : List.length (fifo fixpts1) = S (List.length (fifo fixpts))).
  { simpl. unfold av_fifo_generic_write. rewrite length_app. simpl. lia. }
  change (maxbufsize fixpts1) with (maxbufsize fixpts).
  destruct (Z.eqb_spec (sizeof_ptr * Z.of_nat (List.length (fifo fixpts1)))
              (maxbufsize fixpts)) as [Hfull|Hnot].
  - destruct (process_next_frame_some inlink fixpts1 w)
      as (ret & fixpts' & w' & Hstep).
    { intros Hnil. rewrite Hnil in Hlen1. discriminate. }
    rewrite Hstep.
    destruct (process_next_frame_shrinks _ _ _ _ _ _ Hstep)
      as (Hshrink & Hbuf & Hmax').
    change (bufsize fixpts1) with (bufsize fixpts) in Hbuf.
    change (maxbufsize fixpts1) with (maxbufsize fixpts) in Hmax'.
    destruct (Z.gtb_spec (sizeof_ptr * Z.of_nat (List.length (fifo fixpts')))
                (maxbufsize fixpts')) as [Hgt|_]; [fifo_lia|].
    exists fixpts', w'. split; [reflexivity|].
    split; [split|]; [congruence | fifo_lia | exact Hbuf].
  - destruct (Z.gtb_spec (sizeof_ptr * Z.of_nat (List.length (fifo fixpts1)))
                (maxbufsize fixpts1)) as [Hgt|_].
    + change (maxbufsize fixpts1) with (maxbufsize fixpts) in Hgt. fifo_lia.
    + exists fixpts1, w. split; [reflexivity|].
      split; [split|]; [exact Hmax | | reflexivity].
      change (bufsize fixpts1) with (bufsize fixpts). fifo_lia.
Qed.

Lemma deliveries_below_capacity (inlink : AVFilterLink)
    (frames : list AVFrame) :
  forall (fixpts : FixPtsContext D) (w : World DS),
    below_capacity fixpts ->
    exists rets fixpts' w',
      deliveries inlink fixpts w frames = Some (rets, fixpts', w') /\
      below_capacity fixpts' /\ bufsize fixpts' = bufsize fixpts /\
      Forall (fun ret => ret = 0) rets.
Proof.
  induction frames as [|frame frames IH]; intros fixpts w Hinv; simpl.
  - exists [], fixpts, w. auto.
  - destruct (filter_frame_below_capacity inlink fixpts w frame Hinv)
      as (fixpts1 & w1 & -> & Hinv1 & Hbuf1).
    destruct (IH fixpts1 w1 Hinv1) as (rets & fixpts2 & w2 & -> & Hinv2 & Hbuf2 & Hrets).
    exists (0 :: rets), fixpts2, w2.
    split; [reflexivity|]. split; [exact Hinv2|].
    split; [congruence | auto].
Qed.

(** C8. A stabilizer initialised with a capacity [size >= 1] takes every
    run of frame arrivals; after it the queue holds at most [size] frames,
    and no arrival returned the capacity error (each returned 0). This is
    so because the resolution step, run when the queue reaches its
    capacity, takes at least the oldest frame off it. *)
Theorem queue_never_exceeds_bufsize (inlink : AVFilterLink) (size : Z)
    (tol : D) (w : World DS) (frames : list AVFrame) :
  1 <= size ->
  (exists rets fixpts' w',
     deliveries inlink (init size tol) w frames = Some (rets, fixpts', w') /\
     Z.of_nat (List.length (fifo fixpts')) <= size /\
     Forall (fun ret => ret = 0 /\ ret <> AVERROR EINVAL) rets)
  /\
  (forall fixpts fixpts2 w1 w2 ret,
     process_next_frame inlink fixpts w1 = Some (ret, fixpts2, w2) ->
     (List.length (fifo fixpts2) < List.length (fifo fixpts))%nat).
Proof.
  intros Hsize. split.
  - destruct (deliveries_below_capacity inlink frames (init size tol) w)
      as (rets & fixpts' & w' & Hrun & [_ Hlen] & Hbuf & Hrets).
    { split; [reflexivity | simpl; lia]. }
    exists rets, fixpts', w'. split; [exact Hrun|].
    simpl in Hbuf. split; [lia|].
    eapply Forall_impl; [|exact Hrets].
    intros ret ->. split; [reflexivity | discriminate].
  - intros fixpts fixpts2 w1 w2 ret Hstep.
    now destruct (process_next_frame_shrinks _ _ _ _ _ _ Hstep).
Qed.

End Claims.

(** The theorem at work on binary64: five arrivals at capacity 2. *)
Lemma queue_never_exceeds_bufsize_witness :
  exists rets fixpts' w',
    deliveries Examples.video (init 2 (Examples.tolerance (D:=float)))
      (empty_world 0) (map Examples.frame_at [1; 2; 7; 3; 4])
    = Some (rets, fixpts', w') /\
    Z.of_nat (List.length (fifo fixpts')) <= 2 /\
    Forall (fun ret => ret = 0 /\ ret <> AVERROR EINVAL) rets.
Proof.
  apply (queue_never_exceeds_bufsize Examples.video 2
           (Examples.tolerance (D:=float)) (empty_world 0)
           (map Examples.frame_at [1; 2; 7; 3; 4])).
  lia.
Defined.

End Capacity.

Module Flush.
Import Fifo FixPts Props FixPtsFacts.

Section Facts.
Context {D : Type} `{DoubleOps D} {DS : Type} `{Downstream DS}.

(** With end of stream upstream and frames queued, [request_frame] runs the
    resolution step once and returns [AVERROR_EOF]: [ret] is not 0, so the
    loop is left after its first turn. *)
Lemma request_frame_eof_one_step (inlink : AVFilterLink)
    (fixpts : FixPtsContext D) (w : World DS) :
  fifo fixpts <> [] ->
  request_frame (UpReturn AVERROR_EOF) inlink fixpts w =
  match process_next_frame inlink fixpts w with
  | Some (_, fixpts', w') => Some (AVERROR_EOF, fixpts', w')
  | None => None
  end.
Proof.
  intros Hne. unfold request_frame. cbn [ff_request_frame].
  destruct (fifo fixpts) as [|F rest] eqn:Hfifo; [congruence|].
  rewrite Z.eqb_refl. cbn [negb orb].
  destruct (Z.eqb_spec (av_fifo_size (F :: rest)) 0) as [Hzero|_].
  { unfold av_fifo_size in Hzero. simpl List.length in Hzero. fifo_lia. }
  cbn [List.length flush]. rewrite Hfifo.
  destruct (Z.gtb_spec (av_fifo_size (F :: rest)) 0) as [_|Hle].
  2:{ unfold av_fifo_size in Hle. simpl List.length in Hle. fifo_lia. }
  destruct (process_next_frame inlink fixpts w) as [[[r c] w']|];
    reflexivity.
Qed.

(** The loop of [request_frame] ends: the length of the queue is fuel
    enough. *)
Lemma flush_total (inlink : AVFilterLink) (ret : Z) (fuel : nat) :
  forall (fixpts : FixPtsContext D) (w : World DS),
    (List.length (fifo fixpts) <= fuel)%nat ->
    flush fuel inlink ret fixpts w <> None.
Proof.
  induction fuel as [|fuel IH]; intros fixpts w Hfuel.
  - destruct (fifo fixpts) as [|F rest] eqn:Hfifo; [|simpl in Hfuel; lia].
    simpl. rewrite Hfifo. discriminate.
  - cbn [flush].
    destruct (Z.gtb_spec (av_fifo_size (fifo fixpts)) 0) as [Hpos|_];
      [|discriminate].
    destruct (Capacity.process_next_frame_some inlink fixpts w)
      as (r & c & w' & Hstep).
    { intros Hnil. rewrite Hnil in Hpos. unfold av_fifo_size in Hpos.
      simpl in Hpos. lia. }
    rewrite Hstep.
    destruct (negb (ret =? 0)); [discriminate|].
    apply IH.
    destruct (Capacity.process_next_frame_shrinks _ _ _ _ _ _ Hstep)
      as [Hlen _]. lia.
Qed.

End Facts.

(** C4, on binary64: the frames at ticks 1 and 2 are queued when upstream
    reports end of stream. [request_frame] returns [AVERROR_EOF] after one
    resolution step: the frame at tick 1 went downstream, the frame at
    tick 2 is still queued, neither emitted nor freed. *)
Theorem request_frame_eof_leaves_queue :
  exists fixpts w fixpts' w',
    Examples.two_queued (D:=float) 0 = Some ([0; 0], fixpts, w) /\
    fifo fixpts = map Examples.frame_at [1; 2] /\
    request_frame (UpReturn AVERROR_EOF) Examples.video fixpts w
    = Some (AVERROR_EOF, fixpts', w') /\
    fifo fixpts' = [Examples.frame_at 2] /\
    forwarded w' = [Examples.frame_at 1] /\
    freed w' = [].
Proof.
  do 4 eexists.
  split; [vm_compute; reflexivity|].
  split; [reflexivity|].
  split; [vm_compute; reflexivity|].
  repeat split.
Qed.

End Flush.

Module Errors.
Import Fifo FixPts Props FixPtsFacts.

Section Facts.
Context {D : Type} `{DoubleOps D} {DS : Type} `{Downstream DS}.

(** The arrival of a frame at the stabilizer returns 0 or the capacity
    error, whatever the resolution step returned. *)
Lemma filter_frame_ret (inlink : AVFilterLink) (fixpts fixpts' : FixPtsContext D)
    (w w' : World DS) (frame : AVFrame) (ret : Z) :
  filter_frame inlink fixpts w frame = Some (ret, fixpts', w') ->
  ret = 0 \/ ret = AVERROR EINVAL.
Proof.
  unfold filter_frame.
  destruct (if av_fifo_size _ =? _ then _ else _) as [[c w1]|];
    [|discriminate].
  destruct (av_fifo_size (fifo c) >? maxbufsize c);
    intros Hr; injection Hr as <- _ _; auto.
Qed.

(** The selector returns what the filter downstream returned for the frame
    it forwarded. *)
Lemma selector_forward_ret (inlink : AVFilterLink)
    (editing editing' : Editing.EditingContext D) (w w' : World DS)
    (frame : AVFrame) (ret : Z) :
  Editing.filter_frame inlink editing w frame = (ret, editing', w') ->
  forwarded w' <> forwarded w ->
  exists frame', forwarded w' = forwarded w ++ [frame'] /\
                 ret = snd (deliver (sink w) frame').
Proof.
  unfold Editing.filter_frame, Editing.discard.
  destruct (Editing.current editing) as [|cur next].
  { intros Hr; injection Hr as <- <- <-. simpl. congruence. }
  destruct (_ >? _)%D.
  { intros Hr; injection Hr as <- <- <-. simpl. congruence. }
  destruct (_ >=? _)%D.
  { intros Hr; injection Hr as <- <- <-. simpl. congruence. }
  destruct (_ <=? _)%D.
  { intros Hr; injection Hr as <- <- <-. simpl. congruence. }
  unfold ff_filter_frame.
  match goal with |- context [deliver (sink w) ?f] =>
    destruct (deliver (sink w) f) as [s r] eqn:Hd; intros Hr _; exists f end.
  injection Hr as <- <- <-. simpl. rewrite Hd. auto.
Qed.

(** A pull of the selector returns the negative code the pull upstream
    returned. *)
Lemma selector_pull_ret (inlink : AVFilterLink)
    (editing : Editing.EditingContext D) (w : World DS)
    (ret : Z) (ups : list Upstream) :
  Editing.current editing <> [] -> ret < 0 ->
  Editing.request_frame (UpReturn ret :: ups) inlink editing w
  = Some (ret, editing, w).
Proof.
  intros Hcur Hret. unfold Editing.request_frame.
  destruct (Editing.current editing); [congruence|].
  cbn [Editing.request_loop].
  destruct (Z.ltb_spec ret 0); [reflexivity | lia].
Qed.

End Facts.

(** C5, on binary64: the filter downstream returns [AVERROR(EIO)] for every
    frame. With a capacity of 1 the arrival of a frame runs the resolution
    step, which returns that error, and [filter_frame] returns 0. With two
    frames queued and end of stream upstream, the resolution step returns
    that error and [request_frame] returns [AVERROR_EOF]. *)
Theorem stabilizer_drops_downstream_error :
  let fixpts := init 1 (Examples.tolerance (D:=float)) in
  let w := empty_world Examples.EIO_error in
  let frame := Examples.frame_at 1 in
  (exists fixpts' w',
     process_next_frame Examples.video (set_fifo fixpts [frame]) w
     = Some (Examples.EIO_error, fixpts', w') /\
     forwarded w' = [frame] /\
     filter_frame Examples.video fixpts w frame = Some (0, fixpts', w'))
  /\
  (exists queued w2 fixpts' w',
     Examples.two_queued (D:=float) Examples.EIO_error
     = Some ([0; 0], queued, w2) /\
     process_next_frame Examples.video queued w2
     = Some (Examples.EIO_error, fixpts', w') /\
     request_frame (UpReturn AVERROR_EOF) Examples.video queued w2
     = Some (AVERROR_EOF, fixpts', w')).
Proof.
  split.
  - do 2 eexists. split; [vm_compute; reflexivity|].
    split; [reflexivity | vm_compute; reflexivity].
  - do 4 eexists. split; [vm_compute; reflexivity|].
    split; vm_compute; reflexivity.
Qed.

End Errors.

(* ================================================================== *)
(** * The segment selector *)

Module Discontinuity.
Import Editing Props.

Section Claims.
Context {D : Type} `{DoubleOps D} {DS : Type} `{Downstream DS}.

(** Whatever [atof] reads, the loop of [parse_segments] returns 0 with at
    least one segment linked, or the configuration error. *)
Lemma parse_loop_ret (atof : string -> D) (fuel : nat) :
  forall j segs n ret segs',
    parse_loop atof fuel j segs n = Some (ret, segs') ->
    ret = AVERROR EINVAL \/ (ret = 0 /\ segs' <> []).
Proof.
  induction fuel as [|fuel IH]; intros j segs n ret segs'; simpl;
    [discriminate|].
  destruct (strsep n "-") as [[p|] n1];
    [|intros Hr; injection Hr as <- _; auto].
  destruct (match j with Some j0 => _ | None => false end);
    [intros Hr; injection Hr as <- _; auto|].
  destruct (strsep n1 "#") as [[p2|] n2];
    [|intros Hr; injection Hr as <- _; auto].
  destruct (_ >=? _)%D; [intros Hr; injection Hr as <- _; auto|].
  destruct n2 as [rest|].
  - apply IH.
  - intros Hr; injection Hr as <- <-. right. split; [reflexivity|].
    intros Hnil. apply app_eq_nil in Hnil. destruct Hnil; discriminate.
Qed.

(** A successful [init] leaves a selector at the head of a non-empty
    segment list, with both registers at 0. *)
Lemma init_ok (atof : string -> D) (opt : option string)
    (editing : EditingContext D) :
  init atof opt = Some (0, editing) ->
  current editing <> [] /\ current editing = segments editing /\
  ts_base editing = of_int 0 /\ ts_prev editing = of_int 0.
Proof.
  unfold init.
  destruct (parse_segments atof opt) as [[ret segs]|] eqn:Hparse;
    [|discriminate].
  destruct (Z.ltb_spec ret 0) as [Hneg|Hpos].
  - intros Hr; injection Hr as -> _. lia.
  - intros Hr; injection Hr as <-. simpl.
    repeat split; try reflexivity.
    unfold parse_segments in Hparse. destruct opt as [s|].
    + apply parse_loop_ret in Hparse.
      destruct Hparse as [->|[_ Hne]]; [unfold AVERROR, EINVAL in Hpos; lia|].
      exact Hne.
    + injection Hparse as <- _. unfold AVERROR, EINVAL in Hpos. lia.
Qed.

(** C6, as the code has it. A frame whose timestamp in seconds is strictly
    below [ts_prev]: while a segment is current, the delivery fails with
    [AVERROR(EINVAL)], the frame is freed, nothing is forwarded and the
    state is as before; once the segment list is exhausted, the delivery
    returns 0, the frame is freed and nothing is forwarded. *)
Theorem discontinuity_while_current (inlink : AVFilterLink)
    (editing : EditingContext D) (w : World DS) (frame : AVFrame) :
  (ts_prev editing >? frame_in_ts inlink frame)%D = true ->
  (current editing <> [] ->
   filter_frame inlink editing w frame
   = (AVERROR EINVAL, editing, av_frame_free w frame))
  /\
  (current editing = [] ->
   filter_frame inlink editing w frame
   = (0, set_frame_out editing 0, av_frame_free w frame))
  /\
  forwarded (av_frame_free w frame) = forwarded w /\
  freed (av_frame_free w frame) = freed w ++ [frame].
Proof.
  intros Hlt. unfold filter_frame.
  destruct (current editing) as [|cur next].
  - repeat split; congruence.
  - rewrite Hlt. repeat split; congruence.
Qed.

(** C10. After a successful [init] a segment is current and [ts_prev] is
    0, so a first frame whose timestamp in seconds is strictly negative
    fails with [AVERROR(EINVAL)]; the frame is freed, nothing is forwarded
    and the state is as before. *)
Theorem negative_first_timestamp_fails (atof : string -> D)
    (opt : option string) (inlink : AVFilterLink)
    (editing : EditingContext D) (w : World DS) (frame : AVFrame) :
  init atof opt = Some (0, editing) ->
  (frame_in_ts inlink frame <? of_int 0)%D = true ->
  current editing <> [] /\
  ts_prev editing = of_int 0 /\
  filter_frame inlink editing w frame
  = (AVERROR EINVAL, editing, av_frame_free w frame) /\
  forwarded (av_frame_free w frame) = forwarded w /\
  freed (av_frame_free w frame) = freed w ++ [frame].
Proof.
  intros Hinit Hneg.
  destruct (init_ok atof opt editing Hinit) as (Hne & _ & _ & Hprev).
  split; [exact Hne|]. split; [exact Hprev|].
  unfold filter_frame.
  destruct (current editing) as [|cur next]; [congruence|].
  rewrite Hprev, Hneg. repeat split.
Qed.

End Claims.

(** C6 as stated fails on binary64: after the five frames of the scenario
    the segment list is exhausted and [ts_prev] is 4.5; the frame at 0.5
    is then taken without an error. *)
Lemma discontinuity_not_after_last_segment :
  ~ (forall (inlink : AVFilterLink) (editing : EditingContext float)
            (w : World Z) (frame : AVFrame),
       (ts_prev editing >? frame_in_ts inlink frame)%D = true ->
       fst (fst (filter_frame inlink editing w frame)) = AVERROR EINVAL).
Proof.
  intros Hclaim.
  destruct (Scenario.run (D:=float) 5) as [[[rets editing] w]|] eqn:Hrun;
    [|discriminate].
  specialize (Hclaim Scenario.inlink editing w (Scenario.frame_at 1)).
  vm_compute in Hrun. injection Hrun as <- <- <-.
  discriminate Hclaim. reflexivity.
Qed.

(** The amended C6 at work on binary64: a fresh selector and a frame at
    -0.5 seconds. *)
Lemma discontinuity_while_current_witness :
  filter_frame Scenario.inlink (Scenario.fresh (D:=float)) (empty_world 0)
    (Scenario.frame_at (-1))
  = (AVERROR EINVAL, Scenario.fresh,
     av_frame_free (empty_world 0) (Scenario.frame_at (-1))).
Proof.
  apply (discontinuity_while_current Scenario.inlink
           (Scenario.fresh (D:=float)) (empty_world 0)
           (Scenario.frame_at (-1))).
  - reflexivity.
  - discriminate.
Defined.

(** C10 at work on binary64: the scenario's selector and a first frame at
    -0.5 seconds. *)
Lemma negative_first_timestamp_fails_witness :
  filter_frame Scenario.inlink (Scenario.fresh (D:=float)) (empty_world 0)
    (Scenario.frame_at (-1))
  = (AVERROR EINVAL, Scenario.fresh,
     av_frame_free (empty_world 0) (Scenario.frame_at (-1))).
Proof.
  apply (negative_first_timestamp_fails Atof.atof Scenario.opt_segments
           Scenario.inlink (Scenario.fresh (D:=float)) (empty_world 0)
           (Scenario.frame_at (-1))).
  - reflexivity.
  - reflexivity.
Defined.

End Discontinuity.

Module ScenarioFacts.
Import Editing Props Scenario.

(** C2 as stated fails on binary64: it has the offset [ts_base] at 1.0 after
    the frame at 2.5 and the frame at 3.5 forwarded at 1.5 seconds, which is
    tick 3. *)
Lemma scenario_not_as_described :
  ~ (exists rets3 editing3 w3 rets5 editing5 w5,
       run (D:=float) 3 = Some (rets3, editing3, w3) /\
       run (D:=float) 5 = Some (rets5, editing5, w5) /\
       ts_base editing3 = of_int 1 /\
       forwarded w5 = [frame_at 1; frame_at 3] /\
       current editing5 = []).
Proof.
  intros (rets3 & editing3 & w3 & rets5 & editing5 & w5
          & H3 & H5 & Hbase & Hfwd & Hcur).
  vm_compute in H5. injection H5 as <- <- <-. discriminate Hfwd.
Qed.

(** C2, as the code has it, on binary64 with half-second ticks: the frame at
    0.5 is freed; the frame at 1.5 is forwarded at 0.5 (tick 1); the frame
    at 2.5 is freed, the second segment becomes current and [ts_base]
    becomes 1.5; the frame at 3.5 is forwarded at 2.0 (tick 4); the frame
    at 4.5 is freed and no segment is left. *)
Theorem scenario_trace :
  (exists editing w,
     run (D:=float) 1 = Some ([0], editing, w) /\
     forwarded w = [] /\ freed w = [frame_at 1])
  /\
  (exists editing w,
     run (D:=float) 2 = Some ([0; 0], editing, w) /\
     forwarded w = [frame_at 1] /\ freed w = [frame_at 1] /\
     ts_base editing = of_int 0)
  /\
  (exists editing w,
     run (D:=float) 3 = Some ([0; 0; 0], editing, w) /\
     forwarded w = [frame_at 1] /\ freed w = [frame_at 1; frame_at 5] /\
     ts_base editing = (of_int 3 / of_int 2)%D /\
     current editing = [{| start := of_int 3; end_ := of_int 4 |}])
  /\
  (exists editing w,
     run (D:=float) 4 = Some ([0; 0; 0; 0], editing, w) /\
     forwarded w = [frame_at 1; frame_at 4] /\
     freed w = [frame_at 1; frame_at 5])
  /\
  (exists editing w,
     run (D:=float) 5 = Some ([0; 0; 0; 0; 0], editing, w) /\
     forwarded w = [frame_at 1; frame_at 4] /\
     freed w = [frame_at 1; frame_at 5; frame_at 9] /\
     current editing = []).
Proof.
  repeat split; do 2 eexists;
    (split; [vm_compute; reflexivity | repeat split; vm_compute; reflexivity]).
Qed.


End ScenarioFacts.

Module Timeline.
Import Editing Props.


Section Claims.
Context {D : Type} `{ExactLaws D} {DS : Type} `{Downstream DS}.










End Claims.


End Timeline.

Module Parsing.
Import Editing Props.

Lemma strsep_split_found (delim : ascii) (s rest : string) :
  free_of delim s = true ->
  strsep_split (s ++ String delim rest) delim = (s, Some rest).
Proof.
  induction s as [|c s IH]; simpl.
  - now rewrite Ascii.eqb_refl.
  - intros Hfree. apply andb_true_iff in Hfree. destruct Hfree as [Hc Hs].
    apply negb_true_iff in Hc. rewrite Hc, (IH Hs). reflexivity.
Qed.

Lemma strsep_split_missing (delim : ascii) (s : string) :
  free_of delim s = true -> strsep_split s delim = (s, None).
Proof.
  induction s as [|c s IH]; simpl; [reflexivity|].
  intros Hfree. apply andb_true_iff in Hfree. destruct Hfree as [Hc Hs].
  apply negb_true_iff in Hc. rewrite Hc, (IH Hs). reflexivity.
Qed.

Lemma length_append (s1 s2 : string) :
  String.length (s1 ++ s2) = (String.length s1 + String.length s2)%nat.
Proof. induction s1 as [|c s1 IH]; simpl; [reflexivity | now rewrite IH]. Qed.

Lemma append_empty_r (s : string) : (s ++ "")%string = s.
Proof. induction s as [|c s IH]; simpl; [reflexivity | now rewrite IH]. Qed.

(** A description has at least one character for each of its pairs. *)
Lemma description_length (l : list (string * string)) (last : option string) :
  (List.length l <= String.length (description l last))%nat.
Proof.
  induction l as [|[s e] l IH]; simpl; [lia|].
  rewrite length_append. simpl. rewrite length_append.
  destruct l as [|p l'].
  - destruct last; simpl; lia.
  - simpl in *. lia.
Qed.

Lemma strsep_split_shorter (delim : ascii) (s tok rest : string) :
  strsep_split s delim = (tok, Some rest) ->
  (String.length rest < String.length s)%nat.
Proof.
  revert tok. induction s as [|c s IH]; intros tok; simpl; [discriminate|].
  destruct (Ascii.eqb c delim).
  - intros Hr; injection Hr as _ <-. lia.
  - destruct (strsep_split s delim) as [tok' [rest'|]] eqn:Hs;
      [|discriminate].
    intros Hr; injection Hr as _ <-. specialize (IH tok' eq_refl). lia.
Qed.

(** The loop of [parse_segments] ends: the length of the description is
    fuel enough, whatever the description and whatever [atof] reads. *)
Lemma parse_loop_total {D : Type} `{DoubleOps D} (atof : string -> D)
    (fuel : nat) :
  forall j segs s,
    (String.length s < fuel)%nat ->
    parse_loop atof fuel j segs (Some s) <> None.
Proof.
  induction fuel as [|fuel IH]; intros j segs s Hfuel; [lia|].
  cbn [parse_loop strsep].
  destruct (strsep_split s "-") as [tok [s1|]] eqn:Hs1.
  - apply strsep_split_shorter in Hs1.
    destruct (match j with Some j0 => _ | None => false end); [discriminate|].
    cbn [strsep].
    destruct (strsep_split s1 "#") as [tok2 [s2|]] eqn:Hs2.
    + apply strsep_split_shorter in Hs2.
      destruct (_ >=? _)%D; [discriminate|]. apply IH. lia.
    + destruct (_ >=? _)%D; discriminate.
  - destruct (match j with Some j0 => _ | None => false end);
      discriminate.
Qed.

Lemma parse_segments_total {D : Type} `{DoubleOps D} (atof : string -> D)
    (opt : option string) :
  parse_segments atof opt <> None.
Proof.
  destruct opt as [s|]; unfold parse_segments; [|discriminate].
  apply (parse_loop_total atof (S (String.length s))). lia.
Qed.

Section Claims.
Context {D : Type} `{CmpLaws D}.
Variable atof : string -> D.

Lemma segments_ok_cons (prev : option D) (p : string * string)
    (l : list (string * string)) :
  numeric atof p ->
  match prev with Some e => is_num e = true | None => True end ->
  segments_ok prev (segments_of atof (p :: l)) =
  negb (match prev with
        | Some e => (atof (fst p) <? e)%D
        | None => false
        end)
  && negb (atof (fst p) >=? atof (snd p))%D
  && segments_ok (Some (atof (snd p))) (segments_of atof l).
Proof.
  intros [Hs He] Hprev. simpl. unfold segment_ok. simpl.
  rewrite (dltb_negb_geb _ _ Hs He).
  destruct prev as [e|].
  - rewrite (dltb_negb_geb _ _ Hs Hprev), negb_involutive.
    now destruct (atof (fst p) >=? atof (snd p))%D, (atof (fst p) >=? e)%D.
  - now destruct (atof (fst p) >=? atof (snd p))%D.
Qed.

(** The loop on the description of a list of pairs. *)
Lemma parse_loop_description (l : list (string * string)) :
  forall (fuel : nat) (j : option (MediaSegment D))
         (segs : list (MediaSegment D)),
    l <> [] ->
    (List.length l <= fuel)%nat ->
    Forall delimited l -> Forall (numeric atof) l ->
    match j with Some s => is_num (end_ s) = true | None => True end ->
    let parsed := segments_of atof l in
    let r := parse_loop atof fuel j segs (Some (description l None)) in
    (segments_ok (option_map (@end_ D) j) parsed = true ->
     r = Some (0, segs ++ parsed)) /\
    (segments_ok (option_map (@end_ D) j) parsed = false -> rejected r).
Proof.
  induction l as [|[s e] l IH]; intros fuel j segs Hne Hfuel Hdel Hnum Hj;
    [congruence|].
  inversion Hdel as [|? ? [Hs He] Hdel']; subst.
  inversion Hnum as [|? ? Hp Hnum']; subst.
  destruct fuel as [|fuel]; [simpl in Hfuel; lia|].
  intros parsed r. subst parsed r.
  rewrite (segments_ok_cons (option_map (@end_ D) j) (s, e) l Hp)
    by (destruct j; exact Hj).
  cbn [parse_loop description strsep fst snd].
  rewrite (strsep_split_found "-" s _ Hs).
  replace (match option_map (@end_ D) j with
           | Some e0 => (atof s <? e0)%D
           | None => false
           end)
    with (match j with
          | Some j0 => (atof s <? end_ j0)%D
          | None => false
          end) by (destruct j; reflexivity).
  destruct (match j with Some j0 => _ | None => false end).
  { split; [discriminate | intros _; eexists; reflexivity]. }
  destruct l as [|p l'].
  - (* the last pair *)
    rewrite append_empty_r. cbn [strsep].
    rewrite (strsep_split_missing "#" e He).
    destruct (atof s >=? atof e)%D.
    + split; [discriminate | intros _; eexists; reflexivity].
    + split; [intros _; reflexivity | discriminate].
  - cbn [strsep]. rewrite (strsep_split_found "#" e _ He).
    destruct (atof s >=? atof e)%D.
    + split; [discriminate | intros _; eexists; reflexivity].
    + cbn [negb andb].
      destruct (IH fuel (Some {| start := atof s; end_ := atof e |})
                  (segs ++ [{| start := atof s; end_ := atof e |}]))
        as [Hyes Hno]; try assumption.
      * discriminate.
      * simpl in Hfuel. simpl. lia.
      * exact (proj2 Hp).
      * cbn [option_map end_] in Hyes, Hno. split.
        -- intros Hok. rewrite (Hyes Hok), <- app_assoc. reflexivity.
        -- exact Hno.
Qed.

(** The loop on a description whose last piece has no ['-']. *)
Lemma parse_loop_dangling (l : list (string * string)) (last : string) :
  forall (fuel : nat) (j : option (MediaSegment D))
         (segs : list (MediaSegment D)),
    (List.length l < fuel)%nat ->
    Forall delimited l -> free_of "-" last = true ->
    rejected (parse_loop atof fuel j segs (Some (description l (Some last)))).
Proof.
  induction l as [|[s e] l IH]; intros fuel j segs Hfuel Hdel Hlast;
    (destruct fuel as [|fuel]; [simpl in Hfuel; lia|]).
  - cbn [parse_loop description strsep].
    rewrite (strsep_split_missing "-" last Hlast).
    destruct (match j with Some j0 => _ | None => false end);
      eexists; reflexivity.
  - inversion Hdel as [|? ? [Hs He] Hdel']; subst.
    cbn [parse_loop description strsep fst snd].
    rewrite (strsep_split_found "-" s _ Hs).
    destruct (match j with Some j0 => _ | None => false end);
      [eexists; reflexivity|].
    replace (match l with
             | [] => String "#" (description l (Some last))
             | _ :: _ => String "#" (description l (Some last))
             end) with (String "#" (description l (Some last)))
      by (destruct l; reflexivity).
    cbn [strsep]. rewrite (strsep_split_found "#" e _ He).
    destruct (atof s >=? atof e)%D; [eexists; reflexivity|].
    apply IH; [simpl in Hfuel; lia | exact Hdel' | exact Hlast].
Qed.

(** C7, as the code has it. A missing description is a configuration
    error. For a description [start-end#...#start-end] of one pair or more,
    the start strings free of ['-'], the end strings free of ['#'] and the
    bounds read by [atof] being numbers, [parse_segments] returns 0 with the
    segments read if every interval has [start < end] and every start is
    [>=] the end before it, and returns the configuration error if not.
    A description whose last piece has no ['-'] is a configuration error.
    [init] returns the configuration error [parse_segments] returned. *)
Theorem parse_segments_accepts :
  parse_segments atof None = Some (AVERROR EINVAL, [])
  /\
  (forall l : list (string * string),
     l <> [] -> Forall delimited l -> Forall (numeric atof) l ->
     let parsed := segments_of atof l in
     let r := parse_segments atof (Some (description l None)) in
     (segments_ok None parsed = true -> r = Some (0, parsed)) /\
     (segments_ok None parsed = false -> rejected r))
  /\
  (forall (l : list (string * string)) (last : string),
     Forall delimited l -> free_of "-" last = true ->
     rejected (parse_segments atof (Some (description l (Some last)))))
  /\
  (forall opt : option string,
     rejected (parse_segments atof opt) ->
     exists editing, init atof opt = Some (AVERROR EINVAL, editing)).
Proof.
  split; [reflexivity|]. split; [|split].
  - intros l Hne Hdel Hnum parsed r. subst parsed r. unfold parse_segments.
    apply (parse_loop_description l _ None [] Hne); try assumption.
    + pose proof (description_length l None). lia.
    + exact I.
  - intros l last Hdel Hlast. unfold parse_segments.
    apply parse_loop_dangling; try assumption.
    pose proof (description_length l (Some last)). lia.
  - intros opt [segs Hr]. unfold init. rewrite Hr.
    eexists. reflexivity.
Qed.

End Claims.

(** C7 as stated fails on binary64 with libc's reading of decimal numerals:
    a description whose first bound is missing is accepted as 0-5, and one
    whose second pair has no end is accepted as 1-2, 3-5. *)
Lemma missing_bound_accepted :
  ~ rejected (parse_segments (D:=float) Atof.atof (Some "-5"%string)) /\
  ~ rejected (parse_segments (D:=float) Atof.atof (Some "1-2#3#4-5"%string)).
Proof.
  split; intros [segs Hr]; vm_compute in Hr; discriminate Hr.
Qed.

(** The theorem at work on binary64: the description of the scenario. *)
Lemma parse_segments_accepts_witness :
  parse_segments (D:=float) Atof.atof Scenario.opt_segments
  = Some (0, segments_of Atof.atof
               [("1.0", "2.0"); ("3.0", "4.0")]%string).
Proof.
  destruct (parse_segments_accepts (D:=float) Atof.atof)
    as (_ & Hpairs & _ & _).
  apply (Hpairs [("1.0", "2.0"); ("3.0", "4.0")]%string).
  - discriminate.
  - repeat constructor.
  - repeat constructor.
  - reflexivity.
Defined.

End Parsing.

(* ================================================================== *)
(** * Runs of the timestamp stabilizer *)

Module SubseqFacts.
Import Runs.

Lemma subseq_refl {A : Type} (l : list A) : subseq l l.
Proof. induction l; constructor; assumption. Qed.

Lemma subseq_nil_l {A : Type} (l : list A) : subseq [] l.
Proof. induction l; constructor; assumption. Qed.

Lemma subseq_trans {A : Type} (l1 l2 l3 : list A) :
  subseq l1 l2 -> subseq l2 l3 -> subseq l1 l3.
Proof.
  intros H12 H23. revert l1 H12.
  induction H23 as [|x l2 l3 H23 IH|x l2 l3 H23 IH]; intros l1 H12.
  - exact H12.
  - constructor. apply IH, H12.
  - inversion H12; subst.
    + apply subseq_skip. apply IH. assumption.
    + apply subseq_take. apply IH. assumption.
Qed.

Lemma subseq_app {A : Type} (l1 l2 m1 m2 : list A) :
  subseq l1 l2 -> subseq m1 m2 -> subseq (l1 ++ m1) (l2 ++ m2).
Proof.
  induction 1; intros Hm; simpl;
    [exact Hm | apply subseq_skip; auto | apply subseq_take; auto].
Qed.

Lemma subseq_skipn {A : Type} (k : nat) (l : list A) : subseq (skipn k l) l.
Proof.
  revert l. induction k as [|k IH]; intros [|x l]; simpl;
    try apply subseq_refl.
  constructor. apply IH.
Qed.

Lemma subseq_length {A : Type} (l1 l2 : list A) :
  subseq l1 l2 -> (List.length l1 <= List.length l2)%nat.
Proof. induction 1; simpl; lia. Qed.

End SubseqFacts.

Module StabilizerRuns.
Import Fifo FixPts Props Runs FixPtsFacts SubseqFacts.

Section Steps.
Context {D : Type} `{DoubleOps D} {DS : Type} `{Downstream DS}.

(** The drain size the scan ends with is the one it started with or the
    offset of a queued frame. *)
Lemma scan_offset (inlink : AVFilterLink) (fixpts : FixPtsContext D)
    (cached : list AVFrame) :
  forall (m : nat) d b,
    fst (scan inlink fixpts cached (sizeof_ptr * Z.of_nat m) d b) = d \/
    exists j, (j < List.length cached)%nat /\
      fst (scan inlink fixpts cached (sizeof_ptr * Z.of_nat m) d b)
      = sizeof_ptr * Z.of_nat (m + j).
Proof.
  induction cached as [|c cached IH]; intros m d b; cbn [scan].
  - left. reflexivity.
  - replace (sizeof_ptr * Z.of_nat m + sizeof_ptr)
      with (sizeof_ptr * Z.of_nat (S m)) by fifo_lia.
    destruct (gap inlink fixpts c <? b)%D.
    + destruct (IH (S m) (sizeof_ptr * Z.of_nat m) (gap inlink fixpts c))
        as [->|(j & Hj & ->)]; right.
      * exists O. cbn [List.length]. split; [lia | f_equal; lia].
      * exists (S j). cbn [List.length]. split; [lia | f_equal; lia].
    + destruct (IH (S m) d b) as [->|(j & Hj & ->)].
      * left. reflexivity.
      * right. exists (S j). cbn [List.length]. split; [lia | f_equal; lia].
Qed.

(** A resolution step hands the oldest frame downstream, or frees it
    together with some frames behind it. *)
Lemma step_outcome (inlink : AVFilterLink) (fixpts : FixPtsContext D)
    (w : World DS) (F : AVFrame) (rest : list AVFrame) :
  fifo fixpts = F :: rest ->
  process_next_frame inlink fixpts w = emitted inlink fixpts w F rest \/
  exists k, (k <= List.length rest)%nat /\
    process_next_frame inlink fixpts w = dropped fixpts w F rest k.
Proof.
  intros Hfifo. unfold process_next_frame. rewrite Hfifo.
  cbn [av_fifo_generic_read]. rewrite submit_and_exit_emitted.
  fold (emitted inlink fixpts w F rest).
  destruct (gap inlink (set_fifo fixpts rest) F <? _)%D; [left; reflexivity|].
  destruct (scan inlink (set_fifo fixpts rest) (fifo (set_fifo fixpts rest))
              0 0 (gap inlink (set_fifo fixpts rest) F))
    as [drain_size best_gap] eqn:Hscan.
  destruct (best_gap >=? _)%D; [left; reflexivity|].
  right. cbn [fifo set_fifo] in *.
  assert (Hk : exists k, (k <= List.length rest)%nat /\
                         drain_size = sizeof_ptr * Z.of_nat k).
  { destruct (scan_offset inlink (set_fifo fixpts rest) rest O 0
                (gap inlink (set_fifo fixpts rest) F)) as [Hd|(j & Hj & Hd)];
      change (sizeof_ptr * Z.of_nat 0) with 0 in Hd;
      rewrite Hscan in Hd; cbn [fst] in Hd.
    - exists O. split; [lia | rewrite Hd; reflexivity].
    - exists j. split; [lia | exact Hd]. }
  destruct Hk as (k & Hk & ->). exists k. split; [exact Hk|].
  rewrite av_fifo_drain_skipn.
  rewrite <- (Z.add_0_l (sizeof_ptr * Z.of_nat k)) at 1.
  rewrite (free_cached_firstn rest k 0 w Hk).
  unfold dropped, av_frame_free. cbn [sink forwarded freed].
  now rewrite <- app_assoc.
Qed.

(** What a resolution step does with the frames: those it hands downstream
    and those it frees are the head of the queue, up to their order, and
    what it hands downstream followed by what it leaves queued keeps the
    order of the queue. *)
Lemma step_accounts (inlink : AVFilterLink) (fixpts fixpts' : FixPtsContext D)
    (w w' : World DS) (ret : Z) :
  process_next_frame inlink fixpts w = Some (ret, fixpts', w') ->
  exists fw fr,
    forwarded w' = forwarded w ++ fw /\
    freed w' = freed w ++ fr /\
    Permutation (fifo fixpts) (fw ++ fr ++ fifo fixpts') /\
    subseq (fw ++ fifo fixpts') (fifo fixpts) /\
    (List.length (fifo fixpts') < List.length (fifo fixpts))%nat /\
    bufsize fixpts' = bufsize fixpts /\
    maxbufsize fixpts' = maxbufsize fixpts /\
    tolerance fixpts' = tolerance fixpts /\
    ((fw = [] /\ last_ts fixpts' = last_ts fixpts /\
      last_nb_samples fixpts' = last_nb_samples fixpts)
     \/
     (exists F, fw = [F] /\ fr = [] /\ last_ts fixpts' = frame_ts inlink F /\
                last_nb_samples fixpts' = nb_samples F)).
Proof.
  destruct (fifo fixpts) as [|F rest] eqn:Hfifo.
  { unfold process_next_frame. rewrite Hfifo. discriminate. }
  destruct (step_outcome inlink fixpts w F rest Hfifo) as [->|(k & Hk & ->)];
    intros Hr; injection Hr as <- <- <-; cbn [forwarded freed fifo set_fifo
      bufsize maxbufsize tolerance last_ts last_nb_samples].
  - exists [F], []. rewrite app_nil_r.
    repeat (split; [first [reflexivity | apply subseq_refl
                          | apply Permutation_refl | simpl; lia]|]).
    right. exists F. auto.
  - exists [], (firstn k rest ++ [F]).
    split; [now rewrite app_nil_r|]. split; [reflexivity|].
    split.
    { cbn [app]. rewrite <- app_assoc. cbn [app].
      apply Permutation_cons_app.
      rewrite firstn_skipn. apply Permutation_refl. }
    split; [cbn [app]; constructor; apply subseq_skipn|].
    split; [rewrite length_skipn; simpl; lia|].
    repeat (split; [reflexivity|]). left. auto.
Qed.

(** The arrival of a frame at a queue below its capacity: the frame is
    queued, and if that fills the queue one resolution step runs, whose
    value is dropped. *)
Lemma arrival_cases (inlink : AVFilterLink) (fixpts : FixPtsContext D)
    (w : World DS) (frame : AVFrame) :
  below_capacity fixpts ->
  let queued := set_fifo fixpts (fifo fixpts ++ [frame]) in
  (Z.of_nat (List.length (fifo fixpts)) + 1 < bufsize fixpts /\
   filter_frame inlink fixpts w frame = Some (0, queued, w))
  \/
  (Z.of_nat (List.length (fifo fixpts)) + 1 = bufsize fixpts /\
   exists ret fixpts' w',
     process_next_frame inlink queued w = Some (ret, fixpts', w') /\
     filter_frame inlink fixpts w frame = Some (0, fixpts', w')).
Proof.
  intros [Hmax Hlen] queued. unfold filter_frame, av_fifo_size.
  destruct (Z.ltb_spec (sizeof_ptr * Z.of_nat (List.length (fifo fixpts)))
              (maxbufsize fixpts)) as [_|Hge]; [|fifo_lia].
  unfold av_fifo_generic_write. fold queued.
  assert (Hlen1 : List.length (fifo queued) = S (List.length (fifo fixpts))).
  { simpl. rewrite length_app. simpl. lia. }
  change (maxbufsize queued) with (maxbufsize fixpts).
  destruct (Z.eqb_spec (sizeof_ptr * Z.of_nat (List.length (fifo queued)))
              (maxbufsize fixpts)) as [Hfull|Hnot].
  - right. split; [fifo_lia|].
    destruct (Capacity.process_next_frame_some inlink queued w)
      as (ret & fixpts' & w' & Hstep).
    { intros Hnil. rewrite Hnil in Hlen1. discriminate. }
    exists ret, fixpts', w'. split; [exact Hstep|]. rewrite Hstep.
    destruct (Capacity.process_next_frame_shrinks _ _ _ _ _ _ Hstep)
      as (Hshrink & _ & Hmax').
    change (maxbufsize queued) with (maxbufsize fixpts) in Hmax'.
    destruct (Z.gtb_spec (sizeof_ptr * Z.of_nat (List.length (fifo fixpts')))
                (maxbufsize fixpts')) as [Hgt|_]; [fifo_lia | reflexivity].
  - left. split; [fifo_lia|].
    destruct (Z.gtb_spec (sizeof_ptr * Z.of_nat (List.length (fifo queued)))
                (maxbufsize queued)) as [Hgt|_]; [|reflexivity].
    change (maxbufsize queued) with (maxbufsize fixpts) in Hgt. fifo_lia.
Qed.

(** What the arrival of a frame does with the frames. *)
Lemma arrival_accounts (inlink : AVFilterLink) (fixpts : FixPtsContext D)
    (w : World DS) (frame : AVFrame) :
  below_capacity fixpts ->
  exists fixpts' w' fw fr,
    filter_frame inlink fixpts w frame = Some (0, fixpts', w') /\
    below_capacity fixpts' /\
    forwarded w' = forwarded w ++ fw /\
    freed w' = freed w ++ fr /\
    Permutation (fifo fixpts ++ [frame]) (fw ++ fr ++ fifo fixpts') /\
    subseq (fw ++ fifo fixpts') (fifo fixpts ++ [frame]) /\
    (registers_follow inlink fixpts w -> registers_follow inlink fixpts' w').
Proof.
  intros Hinv.
  destruct (arrival_cases inlink fixpts w frame Hinv)
    as [[Hlt Hbuf] | (Heq & ret & fixpts' & w' & Hstep & Hfull)].
  - exists (set_fifo fixpts (fifo fixpts ++ [frame])), w, [], [].
    split; [exact Hbuf|]. destruct Hinv as [Hmax Hlen].
    split.
    { split; [exact Hmax|]. simpl. rewrite length_app. simpl. lia. }
    rewrite !app_nil_r. simpl.
    repeat (split; [first [reflexivity | apply Permutation_refl
                          | apply subseq_refl]|]).
    auto.
  - destruct (step_accounts inlink _ _ _ _ _ Hstep)
      as (fw & fr & Hfw & Hfr & Hperm & Hsub & Hshrink & Hb & Hm & _ & Hreg).
    exists fixpts', w', fw, fr. split; [exact Hfull|].
    cbn [fifo set_fifo bufsize maxbufsize] in *.
    destruct Hinv as [Hmax Hlen].
    split.
    { split; [congruence|]. rewrite length_app in Hshrink. simpl in Hshrink.
      lia. }
    repeat (split; [assumption|]).
    intros Hfollow. unfold registers_follow in *. rewrite Hfw.
    destruct Hreg as [(-> & Hts & Hnb) | (F & -> & _ & Hts & Hnb)].
    + rewrite app_nil_r. cbn [last_ts last_nb_samples set_fifo] in Hts, Hnb.
      rewrite Hts, Hnb. exact Hfollow.
    + right. exists (forwarded w), F. auto.
Qed.

Lemma deliveries_account (inlink : AVFilterLink) (frames : list AVFrame) :
  forall (fixpts : FixPtsContext D) (w : World DS),
    below_capacity fixpts ->
    exists rets fixpts' w' fw fr,
      deliveries inlink fixpts w frames = Some (rets, fixpts', w') /\
      below_capacity fixpts' /\
      forwarded w' = forwarded w ++ fw /\
      freed w' = freed w ++ fr /\
      Permutation (fifo fixpts ++ frames) (fw ++ fr ++ fifo fixpts') /\
      subseq (fw ++ fifo fixpts') (fifo fixpts ++ frames) /\
      (registers_follow inlink fixpts w -> registers_follow inlink fixpts' w').
Proof.
  induction frames as [|frame frames IH]; intros fixpts w Hinv;
    cbn [deliveries].
  - exists [], fixpts, w, [], []. rewrite !app_nil_r. simpl.
    repeat (split; [first [reflexivity | assumption | apply Permutation_refl
                          | apply subseq_refl]|]).
    auto.
  - destruct (arrival_accounts inlink fixpts w frame Hinv)
      as (fixpts1 & w1 & fw1 & fr1 & -> & Hinv1 & Hfw1 & Hfr1 & Hperm1
          & Hsub1 & Hreg1).
    destruct (IH fixpts1 w1 Hinv1)
      as (rets & fixpts2 & w2 & fw2 & fr2 & -> & Hinv2 & Hfw2 & Hfr2 & Hperm2
          & Hsub2 & Hreg2).
    exists (0 :: rets), fixpts2, w2, (fw1 ++ fw2), (fr1 ++ fr2).
    split; [reflexivity|]. split; [exact Hinv2|].
    split; [rewrite Hfw2, Hfw1, app_assoc; reflexivity|].
    split; [rewrite Hfr2, Hfr1, app_assoc; reflexivity|].
    split.
    { change (frame :: frames) with ([frame] ++ frames).
      rewrite app_assoc.
      rewrite (Permutation_app_tail frames Hperm1).
      rewrite <- !app_assoc.
      rewrite (Permutation_app_head fw1
                 (Permutation_app_head fr1 Hperm2)).
      apply Permutation_app_head.
      rewrite !app_assoc. apply Permutation_app_tail.
      apply Permutation_app_tail. apply Permutation_app_comm. }
    split.
    { change (frame :: frames) with ([frame] ++ frames).
      rewrite app_assoc, <- (app_assoc fw1 fw2).
      apply (subseq_trans _ (fw1 ++ fifo fixpts1 ++ frames)).
      - apply subseq_app; [apply subseq_refl | exact Hsub2].
      - rewrite app_assoc. apply subseq_app; [exact Hsub1 | apply subseq_refl]. }
    auto.
Qed.

(** Arrivals that leave the queue below its capacity are only queued. *)
Lemma deliveries_buffer (inlink : AVFilterLink) (frames : list AVFrame) :
  forall (fixpts : FixPtsContext D) (w : World DS),
    below_capacity fixpts ->
    Z.of_nat (List.length (fifo fixpts) + List.length frames)
      < bufsize fixpts ->
    deliveries inlink fixpts w frames
    = Some (map (fun _ => 0) frames,
            set_fifo fixpts (fifo fixpts ++ frames), w).
Proof.
  induction frames as [|frame frames IH]; intros fixpts w Hinv Hlen;
    cbn [deliveries map].
  - rewrite app_nil_r. now destruct fixpts.
  - cbn [List.length] in Hlen.
    destruct (arrival_cases inlink fixpts w frame Hinv)
      as [[_ ->] | [Heq _]]; [|lia].
    rewrite IH.
    + cbn [fifo set_fifo]. rewrite <- app_assoc. reflexivity.
    + destruct Hinv as [Hmax _]. split; [exact Hmax|].
      cbn [fifo set_fifo bufsize]. rewrite length_app. simpl. lia.
    + cbn [fifo set_fifo bufsize]. rewrite length_app. simpl. lia.
Qed.

(** The cadence tests read the registers and the tolerance only. *)
Lemma on_cadence_registers (inlink : AVFilterLink) (frames : list AVFrame) :
  forall c1 c2 : FixPtsContext D,
    last_ts c1 = last_ts c2 ->
    last_nb_samples c1 = last_nb_samples c2 ->
    tolerance c1 = tolerance c2 ->
    on_cadence inlink c1 frames = on_cadence inlink c2 frames.
Proof.
  induction frames as [|f frames IH]; intros c1 c2 Hts Hnb Htol;
    cbn [on_cadence]; [reflexivity|].
  unfold gap, frame_ti. rewrite Hts, Hnb, Htol.
  f_equal. apply IH; simpl; auto.
Qed.

(** A frame within the tolerance is handed downstream. *)
Lemma step_within_tolerance (inlink : AVFilterLink) (fixpts : FixPtsContext D)
    (w : World DS) (F : AVFrame) (rest : list AVFrame) :
  fifo fixpts = F :: rest ->
  (gap inlink fixpts F <? tolerance fixpts)%D = true ->
  process_next_frame inlink fixpts w = emitted inlink fixpts w F rest.
Proof.
  intros Hfifo Hlt. unfold process_next_frame. rewrite Hfifo.
  cbn [av_fifo_generic_read].
  change (gap inlink (set_fifo fixpts rest) F) with (gap inlink fixpts F).
  change (tolerance (set_fifo fixpts rest)) with (tolerance fixpts).
  rewrite Hlt, submit_and_exit_emitted. reflexivity.
Qed.

Lemma deliveries_on_cadence (inlink : AVFilterLink) (frames : list AVFrame) :
  forall (fixpts : FixPtsContext D) (w : World DS),
    below_capacity fixpts ->
    on_cadence inlink fixpts (fifo fixpts ++ frames) = true ->
    exists rets fixpts' w' fw,
      deliveries inlink fixpts w frames = Some (rets, fixpts', w') /\
      forwarded w' = forwarded w ++ fw /\
      freed w' = freed w /\
      fw ++ fifo fixpts' = fifo fixpts ++ frames.
Proof.
  induction frames as [|frame frames IH]; intros fixpts w Hinv Hcad;
    cbn [deliveries].
  - exists [], fixpts, w, []. rewrite !app_nil_r. auto.
  - change (frame :: frames) with ([frame] ++ frames) in Hcad.
    rewrite app_assoc in Hcad.
    destruct (arrival_accounts inlink fixpts w frame Hinv)
      as (fixpts1 & w1 & fw1 & fr1 & Harr & Hinv1 & _).
    destruct (arrival_cases inlink fixpts w frame Hinv)
      as [[_ Hbuf] | (_ & ret & c & wc & Hstep & Hfull)].
    + rewrite Hbuf in *. injection Harr as <- <-.
      destruct (IH (set_fifo fixpts (fifo fixpts ++ [frame])) w Hinv1)
        as (rets & fixpts2 & w2 & fw2 & -> & Hfw & Hfr & Hq).
      { rewrite <- Hcad. apply on_cadence_registers; reflexivity. }
      exists (0 :: rets), fixpts2, w2, fw2.
      cbn [fifo set_fifo] in Hq. rewrite <- app_assoc in Hq. auto.
    + rewrite Hfull in *. injection Harr as <- <-.
      destruct (fifo fixpts ++ [frame]) as [|F rest] eqn:Hq.
      { apply app_eq_nil in Hq. destruct Hq; discriminate. }
      cbn [on_cadence app] in Hcad. apply andb_true_iff in Hcad.
      destruct Hcad as [Hgap Hcad].
      rewrite (step_within_tolerance inlink (set_fifo fixpts (F :: rest)) w
                 F rest eq_refl Hgap) in Hstep.
      injection Hstep as <- <- <-.
      match type of Hinv1 with below_capacity ?c =>
        destruct (IH c {| sink := fst (deliver (sink w) F);
                          forwarded := forwarded w ++ [F];
                          freed := freed w |} Hinv1)
          as (rets & fixpts2 & w2 & fw2 & -> & Hfw & Hfr & Hq2) end.
      { rewrite <- Hcad. apply on_cadence_registers; reflexivity. }
      exists (0 :: rets), fixpts2, w2, ([F] ++ fw2).
      cbn [forwarded freed fifo] in *.
      split; [reflexivity|]. split; [rewrite Hfw, <- app_assoc; reflexivity|].
      split; [exact Hfr|].
      change (frame :: frames) with ([frame] ++ frames).
      rewrite (app_assoc (fifo fixpts)), Hq, <- app_assoc, Hq2. reflexivity.
Qed.

(** X1. From [init] with a capacity of at least 1, a run of frame arrivals
    loses and doubles no frame: the frames that arrived are, up to their
    order, those handed downstream, those freed and those still queued. *)
Theorem arrivals_lose_no_frame (inlink : AVFilterLink) (size : Z) (tol : D)
    (w : World DS) (frames : list AVFrame) :
  1 <= size ->
  exists rets fixpts' w' fw fr,
    deliveries inlink (init size tol) w frames = Some (rets, fixpts', w') /\
    forwarded w' = forwarded w ++ fw /\
    freed w' = freed w ++ fr /\
    Permutation frames (fw ++ fr ++ fifo fixpts').
Proof.
  intros Hsize.
  destruct (deliveries_account inlink frames (init size tol) w)
    as (rets & fixpts' & w' & fw & fr & Hrun & _ & Hfw & Hfr & Hperm & _).
  { split; [reflexivity | simpl; lia]. }
  exists rets, fixpts', w', fw, fr. auto.
Qed.

(** X2. From [init] with a capacity of at least 1, the stabilizer neither
    reorders nor alters frames: the frames handed downstream, followed by
    those still queued, are the frames that arrived with some left out, in
    the order of arrival. *)
Theorem arrivals_keep_order (inlink : AVFilterLink) (size : Z) (tol : D)
    (w : World DS) (frames : list AVFrame) :
  1 <= size ->
  exists rets fixpts' w' fw,
    deliveries inlink (init size tol) w frames = Some (rets, fixpts', w') /\
    forwarded w' = forwarded w ++ fw /\
    subseq (fw ++ fifo fixpts') frames.
Proof.
  intros Hsize.
  destruct (deliveries_account inlink frames (init size tol) w)
    as (rets & fixpts' & w' & fw & fr & Hrun & _ & Hfw & _ & _ & Hsub & _).
  { split; [reflexivity | simpl; lia]. }
  exists rets, fixpts', w', fw. auto.
Qed.

(** X3. The stabilizer holds frames back until its queue is full: from
    [init] with capacity [size], fewer than [size] arrivals are only queued
    (nothing goes downstream, nothing is freed, each returns 0); the arrival
    that makes them [size] runs one resolution step on the full queue and
    returns 0 whatever that step returned. *)
Theorem arrivals_buffer_until_full (inlink : AVFilterLink) (size : Z)
    (tol : D) (w : World DS) (frames : list AVFrame) (frame : AVFrame) :
  Z.of_nat (List.length frames) < size ->
  deliveries inlink (init size tol) w frames
  = Some (map (fun _ => 0) frames, set_fifo (init size tol) frames, w)
  /\
  (Z.of_nat (List.length frames) + 1 = size ->
   exists ret fixpts' w',
     process_next_frame inlink
       (set_fifo (init size tol) (frames ++ [frame])) w
     = Some (ret, fixpts', w') /\
     filter_frame inlink (set_fifo (init size tol) frames) w frame
     = Some (0, fixpts', w')).
Proof.
  intros Hlen.
  assert (Hinit : below_capacity (init size tol)).
  { split; [reflexivity | simpl; lia]. }
  split.
  - apply (deliveries_buffer inlink frames (init size tol) w Hinit).
    simpl. lia.
  - intros Hfull.
    destruct (arrival_cases inlink (set_fifo (init size tol) frames) w frame)
      as [[Hlt _] | (_ & ret & fixpts' & w' & Hstep & Harr)].
    + split; [reflexivity | simpl; lia].
    + simpl in Hlt. lia.
    + exists ret, fixpts', w'. auto.
Qed.

(** X4. A stream on cadence passes through untouched: if every frame,
    queued or arriving, is within the tolerance of the cadence set by the
    frame before it, a run of arrivals frees no frame, and the frames handed
    downstream followed by those still queued are the queued and arriving
    frames in their order. *)
Theorem on_cadence_passes_through (inlink : AVFilterLink)
    (fixpts : FixPtsContext D) (w : World DS) (frames : list AVFrame) :
  below_capacity fixpts ->
  on_cadence inlink fixpts (fifo fixpts ++ frames) = true ->
  exists rets fixpts' w' fw,
    deliveries inlink fixpts w frames = Some (rets, fixpts', w') /\
    forwarded w' = forwarded w ++ fw /\
    freed w' = freed w /\
    fw ++ fifo fixpts' = fifo fixpts ++ frames.
Proof. intros Hinv Hcad. now apply deliveries_on_cadence. Qed.

(** X5. From [init] and with nothing handed downstream yet, after a run of
    arrivals [last_ts] and [last_nb_samples] are the timestamp in seconds
    and the sample count of the last frame handed downstream, or still the
    zeros of [init] if none was. *)
Theorem registers_follow_last_emitted (inlink : AVFilterLink) (size : Z)
    (tol : D) (w : World DS) (frames : list AVFrame) :
  1 <= size ->
  forwarded w = [] ->
  exists rets fixpts' w',
    deliveries inlink (init size tol) w frames = Some (rets, fixpts', w') /\
    registers_follow inlink fixpts' w'.
Proof.
  intros Hsize Hempty.
  destruct (deliveries_account inlink frames (init size tol) w)
    as (rets & fixpts' & w' & fw & fr & Hrun & _ & _ & _ & _ & _ & Hreg).
  { split; [reflexivity | simpl; lia]. }
  exists rets, fixpts', w'. split; [exact Hrun|].
  apply Hreg. left. auto.
Qed.

Lemma eof_pull_empty (inlink : AVFilterLink) (fixpts : FixPtsContext D)
    (w : World DS) :
  fifo fixpts = [] ->
  request_frame (UpReturn AVERROR_EOF) inlink fixpts w
  = Some (AVERROR_EOF, fixpts, w).
Proof.
  intros Hfifo. unfold request_frame. cbn [ff_request_frame].
  rewrite Hfifo. reflexivity.
Qed.

Lemma eof_pulls_account (inlink : AVFilterLink) (n : nat) :
  forall (fixpts : FixPtsContext D) (w : World DS),
    (List.length (fifo fixpts) <= n)%nat ->
    exists rets fixpts' w' fw fr,
      eof_pulls n inlink fixpts w = Some (rets, fixpts', w') /\
      fifo fixpts' = [] /\
      Forall (fun ret => ret = AVERROR_EOF) rets /\
      forwarded w' = forwarded w ++ fw /\
      freed w' = freed w ++ fr /\
      Permutation (fifo fixpts) (fw ++ fr) /\
      subseq fw (fifo fixpts).
Proof.
  induction n as [|n IH]; intros fixpts w Hlen; cbn [eof_pulls].
  - destruct (fifo fixpts) as [|F rest] eqn:Hfifo; [|simpl in Hlen; lia].
    exists [], fixpts, w, [], []. rewrite !app_nil_r.
    repeat (split; [first [reflexivity | assumption | constructor]|]).
    constructor.
  - destruct (fifo fixpts) as [|F rest] eqn:Hfifo.
    + rewrite (eof_pull_empty inlink fixpts w Hfifo).
      destruct (IH fixpts w) as (rets & c & w' & fw & fr & -> & Hc & Hrets
                                 & Hfw & Hfr & Hperm & Hsub).
      { rewrite Hfifo. simpl. lia. }
      rewrite Hfifo in Hperm, Hsub.
      exists (AVERROR_EOF :: rets), c, w', fw, fr.
      repeat (split; [first [reflexivity | assumption | constructor; auto]|]).
      exact Hsub.
    + rewrite (Flush.request_frame_eof_one_step inlink fixpts w)
        by (rewrite Hfifo; discriminate).
      destruct (Capacity.process_next_frame_some inlink fixpts w)
        as (ret & c1 & w1 & Hstep); [rewrite Hfifo; discriminate|].
      rewrite Hstep.
      destruct (step_accounts inlink _ _ _ _ _ Hstep)
        as (fw1 & fr1 & Hfw1 & Hfr1 & Hperm1 & Hsub1 & Hshrink & _).
      rewrite Hfifo in Hperm1, Hsub1, Hshrink.
      destruct (IH c1 w1) as (rets & c & w' & fw & fr & -> & Hc & Hrets
                              & Hfw & Hfr & Hperm & Hsub).
      { simpl in Hlen, Hshrink. lia. }
      exists (AVERROR_EOF :: rets), c, w', (fw1 ++ fw), (fr1 ++ fr).
      split; [reflexivity|]. split; [exact Hc|].
      split; [constructor; auto|].
      split; [rewrite Hfw, Hfw1, app_assoc; reflexivity|].
      split; [rewrite Hfr, Hfr1, app_assoc; reflexivity|].
      split.
      * rewrite Hperm1.
        rewrite (Permutation_app_head fw1 (Permutation_app_head fr1 Hperm)).
        rewrite <- !app_assoc. apply Permutation_app_head.
        rewrite !app_assoc. apply Permutation_app_tail.
        apply Permutation_app_comm.
      * apply (subseq_trans _ (fw1 ++ fifo c1)); [|exact Hsub1].
        apply subseq_app; [apply subseq_refl | exact Hsub].
Qed.

(** X6. At end of stream one pull does not empty the queue, but as many
    pulls as frames are queued do: each returns [AVERROR_EOF], and after
    them the queue is empty, every frame that was queued having been handed
    downstream, in the order of the queue, or freed. *)
Theorem eof_pulls_drain (inlink : AVFilterLink) (n : nat)
    (fixpts : FixPtsContext D) (w : World DS) :
  (List.length (fifo fixpts) <= n)%nat ->
  exists rets fixpts' w' fw fr,
    eof_pulls n inlink fixpts w = Some (rets, fixpts', w') /\
    fifo fixpts' = [] /\
    Forall (fun ret => ret = AVERROR_EOF) rets /\
    forwarded w' = forwarded w ++ fw /\
    freed w' = freed w ++ fr /\
    Permutation (fifo fixpts) (fw ++ fr) /\
    subseq fw (fifo fixpts).
Proof. apply eof_pulls_account. Qed.

End Steps.

Section Settling.
Context {D : Type} `{CmpLaws D} {DS : Type} `{Downstream DS}.

(** X7. A resolution step that hands nothing downstream is followed by one
    that does: on a queue whose gaps are numbers, after a step that only
    frees frames the queue is not empty and the next step hands its oldest
    frame downstream. *)
Theorem drop_then_emit (inlink : AVFilterLink)
    (fixpts fixpts' : FixPtsContext D) (w w' : World DS) (ret : Z) :
  Forall (fun c => is_num (gap inlink fixpts c) = true) (fifo fixpts) ->
  process_next_frame inlink fixpts w = Some (ret, fixpts', w') ->
  forwarded w' = forwarded w ->
  exists c rest',
    fifo fixpts' = c :: rest' /\
    process_next_frame inlink fixpts' w' = emitted inlink fixpts' w' c rest'.
Proof.
  intros Hnum Hstep Hquiet.
  destruct (fifo fixpts) as [|F rest] eqn:Hfifo.
  { unfold process_next_frame in Hstep. rewrite Hfifo in Hstep.
    discriminate. }
  inversion Hnum as [|? ? HF Hrest]; subst.
  assert (Hgrow : forwarded w ++ [F] <> forwarded w).
  { intros Heq. apply (f_equal (@List.length _)) in Heq.
    rewrite length_app in Heq. simpl in Heq. lia. }
  revert Hstep. unfold process_next_frame at 1. rewrite Hfifo.
  cbn [av_fifo_generic_read]. rewrite submit_and_exit_emitted.
  change (gap inlink (set_fifo fixpts rest)) with (gap inlink fixpts).
  cbn [tolerance fifo set_fifo].
  destruct (gap inlink fixpts F <? tolerance fixpts)%D.
  { intros Hr; injection Hr as <- <- <-. simpl in Hquiet. congruence. }
  destruct (scan_spec inlink (set_fifo fixpts rest) rest 0 0
              (gap inlink fixpts F) HF Hrest)
    as [[Hscan _] | (k & c & Hnth & Hscan & Hck & _ & Hafter)];
    rewrite Hscan.
  { change (gap inlink fixpts F >=? gap inlink fixpts F)%D
      with (is_num (gap inlink fixpts F)). rewrite HF.
    intros Hr; injection Hr as <- <- <-. simpl in Hquiet. congruence. }
  change (gap inlink (set_fifo fixpts rest)) with (gap inlink fixpts)
    in Hck, Hafter |- *.
  rewrite (dltb_not_geb _ _ Hck).
  rewrite Z.add_0_l, av_fifo_drain_skipn.
  intros Hr; injection Hr as <- <- <-.
  assert (Hskip : skipn k rest = c :: skipn (S k) rest).
  { clear - Hnth. revert k Hnth.
    induction rest as [|x rest IH]; intros [|k] Hnth; simpl in *;
      try discriminate.
    - now injection Hnth as ->.
    - apply IH, Hnth. }
  exists c, (skipn (S k) rest). cbn [fifo set_fifo].
  split; [exact Hskip|].
  assert (Hc : is_num (gap inlink fixpts c) = true).
  { rewrite Forall_forall in Hrest. apply Hrest.
    eapply nth_error_In, Hnth. }
  assert (Hrest' : Forall (fun c' => is_num (gap inlink fixpts c') = true)
                     (skipn (S k) rest)).
  { rewrite Forall_forall in *. intros x Hx. apply Hrest.
    revert Hx. generalize (S k). clear.
    intros n. revert rest. induction n as [|n IH]; intros [|y rest]; simpl;
      auto. }
  unfold process_next_frame. cbn [fifo set_fifo]. rewrite Hskip.
  cbn [av_fifo_generic_read]. rewrite submit_and_exit_emitted.
  change (gap inlink (set_fifo _ _)) with (gap inlink fixpts).
  cbn [tolerance fifo set_fifo]. unfold emitted.
  cbn [bufsize maxbufsize tolerance set_fifo].
  destruct (gap inlink fixpts c <? tolerance fixpts)%D; [reflexivity|].
  match goal with |- context [scan inlink ?ctx ?l 0 0 ?g] =>
    destruct (scan_spec inlink ctx l 0 0 g Hc Hrest')
      as [[Hscan2 _] | (k2 & c2 & Hnth2 & _ & Hck2 & _)]
  end.
  - rewrite Hscan2.
    change (gap inlink fixpts c >=? gap inlink fixpts c)%D
      with (is_num (gap inlink fixpts c)). rewrite Hc. reflexivity.
  - exfalso.
    change (gap inlink (set_fifo _ _)) with (gap inlink fixpts) in Hck2.
    rewrite nth_error_skipn in Hnth2.
    rewrite (Hafter (S k + k2)%nat c2) in Hck2;
      [discriminate | lia | exact Hnth2].
Qed.

End Settling.
End StabilizerRuns.

(* ================================================================== *)
(** * Runs of the segment selector *)

Module SelectorRuns.
Import Editing Props Runs SubseqFacts.

Section Steps.
Context {D : Type} `{DoubleOps D} {DS : Type} `{Downstream DS}.

(** What the arrival of a frame does: the frame is freed, or it goes
    downstream with a new timestamp; the selector stays on its segment or
    moves to the next one. *)
Lemma arrival_outcome (inlink : AVFilterLink)
    (editing editing' : EditingContext D) (w w' : World DS)
    (frame : AVFrame) (ret : Z) :
  filter_frame inlink editing w frame = (ret, editing', w') ->
  segments editing' = segments editing /\
  opt_segments editing' = opt_segments editing /\
  (current editing' = current editing \/
   exists cur, current editing = cur :: current editing') /\
  ((forwarded w' = forwarded w /\ freed w' = freed w ++ [frame] /\
    (ret = 0 /\ frame_out editing' = 0 \/
     ret = AVERROR EINVAL /\ editing' = editing))
   \/
   (exists p,
      forwarded w' = forwarded w ++ [{| pts := p;
                                        nb_samples := nb_samples frame |}] /\
      freed w' = freed w /\
      ret = snd (deliver (sink w) {| pts := p;
                                     nb_samples := nb_samples frame |}) /\
      frame_out editing' = (if ret =? 0 then 1 else 0) /\
      current editing' = current editing /\
      ts_base editing' = ts_base editing)).
Proof.
  unfold filter_frame, discard.
  destruct (current editing) as [|cur next] eqn:Hcur.
  { intros Hr; injection Hr as <- <- <-. simpl. rewrite Hcur.
    split; [reflexivity|]. split; [reflexivity|].
    split; [left; reflexivity|]. left. auto. }
  destruct (_ >? _)%D.
  { intros Hr; injection Hr as <- <- <-. simpl. rewrite Hcur.
    split; [reflexivity|]. split; [reflexivity|].
    split; [left; reflexivity|]. left. auto. }
  destruct (_ >=? _)%D.
  { intros Hr; injection Hr as <- <- <-. simpl.
    split; [reflexivity|]. split; [reflexivity|].
    split; [right; exists cur; reflexivity|]. left. auto. }
  destruct (_ <=? _)%D.
  { intros Hr; injection Hr as <- <- <-. simpl.
    split; [reflexivity|]. split; [reflexivity|].
    split; [left; reflexivity|]. left. auto. }
  unfold ff_filter_frame.
  match goal with |- context [deliver (sink w) ?f] =>
    destruct (deliver (sink w) f) as [s r] eqn:Hd end.
  intros Hr; injection Hr as <- <- <-. simpl.
  split; [reflexivity|]. split; [reflexivity|].
  split; [left; reflexivity|]. right. eexists. rewrite Hd. simpl.
  repeat split; reflexivity.
Qed.

Lemma deliveries_outcome (inlink : AVFilterLink) (frames : list AVFrame) :
  forall (editing editing' : EditingContext D) (w w' : World DS) rets,
    deliveries inlink editing w frames = (rets, editing', w') ->
    segments editing' = segments editing /\
    opt_segments editing' = opt_segments editing /\
    (exists closed, current editing = closed ++ current editing') /\
    exists kept dropped,
      forwarded w' = forwarded w ++ kept /\
      freed w' = freed w ++ dropped /\
      (List.length kept + List.length dropped = List.length frames)%nat /\
      subseq dropped frames /\
      subseq (map nb_samples kept) (map nb_samples frames).
Proof.
  induction frames as [|frame frames IH];
    intros editing editing' w w' rets; cbn [deliveries].
  - intros Hr; injection Hr as _ <- <-.
    repeat split; auto. { exists []. reflexivity. }
    exists [], []. rewrite !app_nil_r. repeat split; auto; constructor.
  - destruct (filter_frame inlink editing w frame) as [[ret e1] w1] eqn:Hstep.
    destruct (deliveries inlink e1 w1 frames) as [[rets' e2] w2] eqn:Hrun.
    intros Hr; injection Hr as _ <- <-.
    destruct (arrival_outcome _ _ _ _ _ _ _ Hstep)
      as (Hseg1 & Hopt1 & Hcur1 & Hlog1).
    destruct (IH _ _ _ _ _ Hrun)
      as (Hseg2 & Hopt2 & (closed2 & Hcur2) & kept & dropped & Hfw & Hfr
          & Hlen & Hsub & Hnb).
    split; [congruence|]. split; [congruence|].
    split.
    { destruct Hcur1 as [Heq|(cur & Heq)].
      - exists closed2. rewrite <- Heq. exact Hcur2.
      - exists (cur :: closed2). rewrite Heq, Hcur2. reflexivity. }
    destruct Hlog1 as [(Hfw1 & Hfr1 & _) | (p & Hfw1 & Hfr1 & _)].
    + exists kept, (frame :: dropped).
      rewrite Hfw, Hfr, Hfw1, Hfr1, <- app_assoc. simpl.
      repeat split; auto; try lia; constructor; assumption.
    + exists ({| pts := p; nb_samples := nb_samples frame |} :: kept),
             dropped.
      rewrite Hfw, Hfr, Hfw1, Hfr1, <- app_assoc. simpl.
      repeat split; auto; try lia; constructor; assumption.
Qed.

(** X8. The selector accounts for every frame it is given: after a run of
    arrivals, each frame has been freed as it came or has gone downstream
    once, with its sample count, in the order of arrival. *)
Theorem selector_accounts_for_frames (inlink : AVFilterLink)
    (editing editing' : EditingContext D) (w w' : World DS)
    (frames : list AVFrame) (rets : list Z) :
  deliveries inlink editing w frames = (rets, editing', w') ->
  exists kept dropped,
    forwarded w' = forwarded w ++ kept /\
    freed w' = freed w ++ dropped /\
    (List.length kept + List.length dropped = List.length frames)%nat /\
    subseq dropped frames /\
    subseq (map nb_samples kept) (map nb_samples frames).
Proof.
  intros Hrun. now destruct (deliveries_outcome inlink frames _ _ _ _ _ Hrun)
    as (_ & _ & _ & Hlog).
Qed.

(** X9. The selector only walks forward through its segments: after a run
    of arrivals the current segment list is a tail of the one before, and
    the segment list and the description are untouched. *)
Theorem current_walks_forward (inlink : AVFilterLink)
    (editing editing' : EditingContext D) (w w' : World DS)
    (frames : list AVFrame) (rets : list Z) :
  deliveries inlink editing w frames = (rets, editing', w') ->
  (exists closed, current editing = closed ++ current editing') /\
  segments editing' = segments editing /\
  opt_segments editing' = opt_segments editing.
Proof.
  intros Hrun. destruct (deliveries_outcome inlink frames _ _ _ _ _ Hrun)
    as (Hseg & Hopt & Hcur & _). auto.
Qed.

Lemma deliveries_exhausted (inlink : AVFilterLink) (frames : list AVFrame) :
  forall (editing : EditingContext D) (w : World DS),
    current editing = [] ->
    exists editing',
      deliveries inlink editing w frames
      = (map (fun _ => 0) frames, editing',
         {| sink := sink w; forwarded := forwarded w;
            freed := freed w ++ frames |}) /\
      current editing' = [] /\
      ts_base editing' = ts_base editing /\
      ts_prev editing' = ts_prev editing.
Proof.
  induction frames as [|frame frames IH]; intros editing w Hcur;
    cbn [deliveries map].
  - exists editing. rewrite app_nil_r. destruct w. auto.
  - unfold filter_frame at 1. rewrite Hcur. unfold discard.
    destruct (IH (set_frame_out editing 0) (av_frame_free w frame) Hcur)
      as (editing' & -> & Hcur' & Hbase & Hprev).
    exists editing'. simpl. rewrite <- app_assoc. auto.
Qed.

(** X10. The end of the segment list is final: once no segment is current,
    every arriving frame is freed and nothing goes downstream, each arrival
    returns 0 whatever the timestamp, the selector stays without a segment,
    and a pull returns [AVERROR_EOF] at once, without pulling upstream. *)
Theorem exhausted_is_final (inlink : AVFilterLink)
    (editing : EditingContext D) (w : World DS) (frames : list AVFrame)
    (ups : list Upstream) :
  current editing = [] ->
  (exists editing',
     deliveries inlink editing w frames
     = (map (fun _ => 0) frames, editing',
        {| sink := sink w; forwarded := forwarded w;
           freed := freed w ++ frames |}) /\
     current editing' = [] /\
     ts_base editing' = ts_base editing /\
     ts_prev editing' = ts_prev editing)
  /\
  request_frame ups inlink editing w = Some (AVERROR_EOF, editing, w).
Proof.
  intros Hcur. split.
  - now apply deliveries_exhausted.
  - unfold request_frame. now rewrite Hcur.
Qed.



End Steps.

Section Ordered.
Context {D : Type} `{CmpLaws D} {DS : Type} `{Downstream DS}.

(** X12. A frame goes downstream only from strictly inside the current
    segment: when the timestamp, [ts_prev] and the bounds of the segments
    ahead are numbers and an arrival forwards a frame, a segment is current,
    the timestamp [t] of the frame has [ts_prev <= t] and
    [start < t < end], the frame goes out at
    [ts_base + (t - start)] in ticks, and the selector keeps its segment
    and its offset. A frame on a bound of the segment is not forwarded. *)
Theorem forwarded_inside_segment (inlink : AVFilterLink)
    (editing editing' : EditingContext D) (w w' : World DS)
    (frame : AVFrame) (ret : Z) :
  is_num (frame_in_ts inlink frame) = true ->
  is_num (ts_prev editing) = true ->
  Forall bounds_num (current editing) ->
  filter_frame inlink editing w frame = (ret, editing', w') ->
  forwarded w' <> forwarded w ->
  let t := frame_in_ts inlink frame in
  exists cur next,
    current editing = cur :: next /\
    (ts_prev editing <=? t)%D = true /\
    (start cur <? t)%D = true /\ (t <? end_ cur)%D = true /\
    forwarded w'
    = forwarded w
      ++ [{| pts := ticks inlink (ts_base editing + (t - start cur))%D;
             nb_samples := nb_samples frame |}] /\
    current editing' = current editing /\
    ts_base editing' = ts_base editing /\
    ts_prev editing' = t.
Proof.
  intros Ht Hprev Hbounds. unfold filter_frame, discard.
  destruct (current editing) as [|cur next] eqn:Hcur.
  { intros Hr; injection Hr as <- <- <-. simpl. congruence. }
  inversion Hbounds as [|? ? [Hs He] _]; subst.
  destruct (ts_prev editing >? frame_in_ts inlink frame)%D eqn:Hlt.
  { intros Hr; injection Hr as <- <- <-. simpl. congruence. }
  destruct (frame_in_ts inlink frame >=? end_ cur)%D eqn:Hend.
  { intros Hr; injection Hr as <- <- <-. simpl. congruence. }
  destruct (frame_in_ts inlink frame <=? start cur)%D eqn:Hstart.
  { intros Hr; injection Hr as <- <- <-. simpl. congruence. }
  unfold ff_filter_frame.
  match goal with |- context [deliver (sink w) ?f] =>
    destruct (deliver (sink w) f) as [s r] end.
  intros Hr _; injection Hr as <- <- <-. simpl.
  exists cur, next. split; [reflexivity|].
  rewrite (dltb_negb_geb _ _ Ht Hprev) in Hlt.
  apply negb_false_iff in Hlt.
  split; [exact Hlt|].
  split; [rewrite (dltb_negb_geb _ _ Hs Ht); now rewrite Hstart|].
  split; [rewrite (dltb_negb_geb _ _ Ht He); now rewrite Hend|].
  repeat split; reflexivity.
Qed.

(** The tests of [parse_segments] are those of the segment list invariant
    when the bounds are numbers. *)
Lemma linked_segments_ok (l : list (MediaSegment D)) :
  forall prev : option D,
    match prev with Some e => is_num e = true | None => True end ->
    Forall bounds_num l ->
    linked prev l = segments_ok prev l.
Proof.
  induction l as [|s l IH]; intros prev Hprev Hnum; cbn [linked segments_ok];
    [reflexivity|].
  inversion Hnum as [|? ? [Hs He] Hnum']; subst.
  rewrite (IH (Some (end_ s)) He Hnum'). unfold segment_ok.
  rewrite (dltb_negb_geb _ _ Hs He).
  destruct prev as [e|].
  - rewrite (dltb_negb_geb _ _ Hs Hprev), negb_involutive.
    now destruct (start s >=? end_ s)%D, (start s >=? e)%D.
  - now destruct (start s >=? end_ s)%D.
Qed.

(** The segments the loop of [parse_segments] links have passed its two
    tests, whatever the description. *)
Lemma parse_loop_linked (atof : string -> D) (fuel : nat) :
  forall j segs n segs',
    parse_loop atof fuel j segs n = Some (0, segs') ->
    exists new,
      segs' = segs ++ new /\ new <> [] /\
      linked (option_map (@end_ D) j) new = true.
Proof.
  induction fuel as [|fuel IH]; intros j segs n segs'; cbn [parse_loop];
    [discriminate|].
  destruct (strsep n "-") as [[p|] n1]; [|discriminate].
  destruct (match j with Some j0 => _ | None => false end) eqn:Hmono;
    [discriminate|].
  destruct (strsep n1 "#") as [[p2|] n2]; [|discriminate].
  destruct (atof p >=? atof p2)%D eqn:Hempty; [discriminate|].
  assert (Hhead : forall l,
    linked (Some (atof p2)) l = true ->
    linked (option_map (@end_ D) j)
      ({| start := atof p; end_ := atof p2 |} :: l) = true).
  { intros l Hl. cbn [linked start end_]. rewrite Hempty, Hl.
    destruct j; simpl in *; rewrite ?Hmono; reflexivity. }
  destruct n2 as [rest|].
  - intros Hloop. destruct (IH _ _ _ _ Hloop) as (new & -> & _ & Hnew).
    exists ({| start := atof p; end_ := atof p2 |} :: new).
    rewrite <- app_assoc. split; [reflexivity|]. split; [discriminate|].
    apply Hhead, Hnew.
  - intros Hr; injection Hr as <-.
    exists [{| start := atof p; end_ := atof p2 |}].
    split; [reflexivity|]. split; [discriminate|]. now apply Hhead.
Qed.

(** X13. Whatever the description, a segment list [parse_segments] accepts
    is not empty and, its bounds being numbers, keeps the invariant of
    segment lists: every segment has [start < end] and starts at or after
    the end of the one before. The value returned is 0 or
    [AVERROR(EINVAL)]. *)
Theorem parsed_segments_are_ordered (atof : string -> D)
    (opt : option string) (ret : Z) (segs : list (MediaSegment D)) :
  parse_segments atof opt = Some (ret, segs) ->
  (ret = 0 \/ ret = AVERROR EINVAL) /\
  (ret = 0 -> Forall bounds_num segs ->
   segs <> [] /\ segments_ok None segs = true).
Proof.
  unfold parse_segments. destruct opt as [s|].
  - intros Hloop. split.
    + destruct (Discontinuity.parse_loop_ret atof _ _ _ _ _ _ Hloop)
        as [->|[-> _]]; auto.
    + intros -> Hnum.
      destruct (parse_loop_linked atof _ _ _ _ _ Hloop)
        as (new & -> & Hne & Hlinked).
      simpl in *. split; [exact Hne|].
      now rewrite <- (linked_segments_ok new None I Hnum).
  - intros Hr; injection Hr as <- <-. split; [auto | discriminate].
Qed.

End Ordered.

Section Exact.
Context {D : Type} `{ExactLaws D} {DS : Type} `{Downstream DS}.



End Exact.
End SelectorRuns.

Module RunsAtWork.
Import Fifo FixPts Props Runs.

(** Five arrivals at capacity 2 on binary64. *)
Lemma arrivals_lose_no_frame_witness :
  exists rets fixpts' w' fw fr,
    deliveries Examples.video (init 2 (Examples.tolerance (D:=float)))
      (empty_world 0) (map Examples.frame_at [1; 2; 7; 3; 4])
    = Some (rets, fixpts', w') /\
    forwarded w' = forwarded (empty_world 0) ++ fw /\
    freed w' = freed (empty_world 0) ++ fr /\
    Permutation (map Examples.frame_at [1; 2; 7; 3; 4])
      (fw ++ fr ++ fifo fixpts').
Proof.
  apply (StabilizerRuns.arrivals_lose_no_frame Examples.video 2
           (Examples.tolerance (D:=float)) (empty_world 0)
           (map Examples.frame_at [1; 2; 7; 3; 4])).
  lia.
Defined.

Lemma arrivals_keep_order_witness :
  exists rets fixpts' w' fw,
    deliveries Examples.video (init 2 (Examples.tolerance (D:=float)))
      (empty_world 0) (map Examples.frame_at [1; 2; 7; 3; 4])
    = Some (rets, fixpts', w') /\
    forwarded w' = forwarded (empty_world 0) ++ fw /\
    subseq (fw ++ fifo fixpts') (map Examples.frame_at [1; 2; 7; 3; 4]).
Proof.
  apply (StabilizerRuns.arrivals_keep_order Examples.video 2
           (Examples.tolerance (D:=float)) (empty_world 0)
           (map Examples.frame_at [1; 2; 7; 3; 4])).
  lia.
Defined.

(** Two arrivals at capacity 3 on binary64 are only queued. *)
Lemma arrivals_buffer_until_full_witness :
  deliveries Examples.video (init 3 (Examples.tolerance (D:=float)))
    (empty_world 0) (map Examples.frame_at [1; 2])
  = Some ([0; 0],
          set_fifo (init 3 Examples.tolerance) (map Examples.frame_at [1; 2]),
          empty_world 0).
Proof.
  refine (proj1 (StabilizerRuns.arrivals_buffer_until_full Examples.video 3
                   (Examples.tolerance (D:=float)) (empty_world 0)
                   (map Examples.frame_at [1; 2]) (Examples.frame_at 3) _)).
  simpl. lia.
Defined.

(** Four frames a tick apart at 25 frames a second, capacity 2, on
    binary64. *)
Lemma on_cadence_passes_through_witness :
  exists rets fixpts' w' fw,
    deliveries Examples.video (init 2 (Examples.tolerance (D:=float)))
      (empty_world 0) (map Examples.frame_at [1; 2; 3; 4])
    = Some (rets, fixpts', w') /\
    forwarded w' = forwarded (empty_world 0) ++ fw /\
    freed w' = freed (empty_world 0) /\
    fw ++ fifo fixpts'
    = fifo (init 2 (Examples.tolerance (D:=float)))
      ++ map Examples.frame_at [1; 2; 3; 4].
Proof.
  apply (StabilizerRuns.on_cadence_passes_through Examples.video
           (init 2 (Examples.tolerance (D:=float))) (empty_world 0)
           (map Examples.frame_at [1; 2; 3; 4])).
  - split; [reflexivity | simpl; lia].
  - reflexivity.
Defined.

Lemma registers_follow_last_emitted_witness :
  exists rets fixpts' w',
    deliveries Examples.video (init 2 (Examples.tolerance (D:=float)))
      (empty_world 0) (map Examples.frame_at [1; 2; 7; 3; 4])
    = Some (rets, fixpts', w') /\
    registers_follow Examples.video fixpts' w'.
Proof.
  apply (StabilizerRuns.registers_follow_last_emitted Examples.video 2
           (Examples.tolerance (D:=float)) (empty_world 0)
           (map Examples.frame_at [1; 2; 7; 3; 4])).
  - lia.
  - reflexivity.
Defined.

(** Four pulls at end of stream on the queue of ticks 10, 5, 1, 2. *)
Lemma eof_pulls_drain_witness :
  exists rets fixpts' w' fw fr,
    eof_pulls 4 Examples.video (Examples.jittered (D:=float)) (empty_world 0)
    = Some (rets, fixpts', w') /\
    fifo fixpts' = [] /\
    Forall (fun ret => ret = AVERROR_EOF) rets /\
    forwarded w' = forwarded (empty_world 0) ++ fw /\
    freed w' = freed (empty_world 0) ++ fr /\
    Permutation (fifo (Examples.jittered (D:=float))) (fw ++ fr) /\
    subseq fw (fifo (Examples.jittered (D:=float))).
Proof.
  apply (StabilizerRuns.eof_pulls_drain Examples.video 4
           (Examples.jittered (D:=float)) (empty_world 0)).
  simpl. lia.
Defined.

(** After the step that frees the frames at ticks 10 and 5, the next step
    hands the frame at tick 1 downstream. *)
Lemma drop_then_emit_witness :
  let fixpts' := set_fifo (Examples.jittered (D:=float))
                   (map Examples.frame_at [1; 2]) in
  let w' := {| sink := 0; forwarded := [];
               freed := map Examples.frame_at [5; 10] |} in
  exists c rest',
    fifo fixpts' = c :: rest' /\
    process_next_frame Examples.video fixpts' w'
    = emitted Examples.video fixpts' w' c rest'.
Proof.
  intros fixpts' w'.
  apply (StabilizerRuns.drop_then_emit Examples.video
           (Examples.jittered (D:=float)) fixpts' (empty_world 0) w' 0).
  - repeat constructor.
  - reflexivity.
  - reflexivity.
Defined.

End RunsAtWork.

Module SelectorAtWork.
Import Editing Props Runs.

(** The scenario on binary64. *)
Lemma selector_accounts_for_frames_witness :
  exists kept dropped,
    forwarded (snd (deliveries Scenario.inlink (Scenario.fresh (D:=float))
                      (empty_world 0) Scenario.frames))
    = forwarded (empty_world 0) ++ kept /\
    freed (snd (deliveries Scenario.inlink (Scenario.fresh (D:=float))
                  (empty_world 0) Scenario.frames))
    = freed (empty_world 0) ++ dropped /\
    (List.length kept + List.length dropped
     = List.length Scenario.frames)%nat /\
    subseq dropped Scenario.frames /\
    subseq (map nb_samples kept) (map nb_samples Scenario.frames).
Proof.
  destruct (deliveries Scenario.inlink (Scenario.fresh (D:=float))
              (empty_world 0) Scenario.frames) as [[rets editing'] w'] eqn:Hrun.
  exact (SelectorRuns.selector_accounts_for_frames Scenario.inlink
           (Scenario.fresh (D:=float)) editing' (empty_world 0) w'
           Scenario.frames rets Hrun).
Defined.

Lemma current_walks_forward_witness :
  exists closed,
    current (Scenario.fresh (D:=float))
    = closed ++ current (snd (fst (deliveries Scenario.inlink
                                     (Scenario.fresh (D:=float))
                                     (empty_world 0) Scenario.frames))).
Proof.
  destruct (deliveries Scenario.inlink (Scenario.fresh (D:=float))
              (empty_world 0) Scenario.frames) as [[rets editing'] w'] eqn:Hrun.
  exact (proj1 (SelectorRuns.current_walks_forward Scenario.inlink
                  (Scenario.fresh (D:=float)) editing' (empty_world 0) w'
                  Scenario.frames rets Hrun)).
Defined.

(** The selector of the scenario after its last segment. *)
Lemma exhausted_is_final_witness :
  let editing :=
    {| opt_segments := Scenario.opt_segments;
       ts_base := of_int 3; ts_prev := (of_int 9 / of_int 2)%D;
       frame_out := 0; current := [];
       segments := segments (Scenario.fresh (D:=float)) |} in
  request_frame [UpFrame (Scenario.frame_at 11)] Scenario.inlink editing
    (empty_world 0)
  = Some (AVERROR_EOF, editing, empty_world 0).
Proof.
  intros editing.
  refine (proj2 (SelectorRuns.exhausted_is_final Scenario.inlink editing
                   (empty_world 0) Scenario.frames
                   [UpFrame (Scenario.frame_at 11)] _)).
  reflexivity.
Defined.


(** The frame at 1.5 seconds in the segment 1.0-2.0 on binary64. *)
Lemma forwarded_inside_segment_witness :
  exists cur next,
    current (Scenario.fresh (D:=float)) = cur :: next /\
    (start cur <? frame_in_ts Scenario.inlink (Scenario.frame_at 3))%D = true /\
    (frame_in_ts Scenario.inlink (Scenario.frame_at 3) <? end_ cur)%D = true.
Proof.
  destruct (filter_frame Scenario.inlink (Scenario.fresh (D:=float))
              (empty_world 0) (Scenario.frame_at 3))
    as [[ret editing'] w'] eqn:Hstep.
  destruct (SelectorRuns.forwarded_inside_segment Scenario.inlink
              (Scenario.fresh (D:=float)) editing' (empty_world 0) w'
              (Scenario.frame_at 3) ret)
    as (cur & next & Hcur & _ & Hstart & Hend & _).
  - reflexivity.
  - reflexivity.
  - repeat constructor.
  - exact Hstep.
  - vm_compute in Hstep. injection Hstep as _ _ <-. discriminate.
  - exists cur, next. auto.
Defined.

(** The description of the scenario on binary64. *)
Lemma parsed_segments_are_ordered_witness :
  segments_of (D:=float) Atof.atof [("1.0", "2.0"); ("3.0", "4.0")]%string
  <> [] /\
  segments_ok None
    (segments_of (D:=float) Atof.atof
       [("1.0", "2.0"); ("3.0", "4.0")]%string) = true.
Proof.
  refine (proj2 (SelectorRuns.parsed_segments_are_ordered (D:=float)
                   Atof.atof Scenario.opt_segments 0
                   (segments_of Atof.atof
                      [("1.0", "2.0"); ("3.0", "4.0")]%string) _) _ _).
  - reflexivity.
  - reflexivity.
  - repeat constructor.
Defined.


End SelectorAtWork.
